(** * Virtual-TA: the retrieval pipeline of [embedding.py] and [app.py]

    A shallow embedding of the ingestion path (chunking, embedding with
    retry and oversized-input fallback, batch indexing) and of the query
    path (similarity search, answer assembly), followed by the properties
    the specification states about them.

    Conventions.
    - A Python [str] is a list of Unicode code points ([N]); [len], slicing
      and [split] therefore count characters, as Python does.
    - A Python [int] is a [Z]; a Python [float] is a [spec_float] (IEEE 754
      binary64 with its NaN, signed zeros and infinities).
    - An exception is a value; code that can raise returns a [res].
    - The embedding provider, the generative model and the FAISS search are
      oracles: section variables over which every statement quantifies.
    - Logging and printing are left out. *)

From Stdlib Require Import String Ascii ZArith NArith List Lia Bool.
From Stdlib Require Import DecimalString SpecFloat Sorted Permutation.
From Stdlib Require DecimalPos DecimalZ.
Import ListNotations.

Local Open Scope Z_scope.

(* ===================================================================== *)
(** * Python values shared by the two programs *)
(* ===================================================================== *)

Module Py.

(** ** Strings *)

Definition char := N.
Definition str := list char.

(** A string literal of the source, as code points. *)
Definition lit (s : string) : str := map N_of_ascii (list_ascii_of_string s).

(** [len(x)] *)
Definition len {A} (l : list A) : Z := Z.of_nat (length l).

(** [str.isspace] on one code point: the characters [str.split()] splits
    on when it is called without a separator. *)
Definition isspace (c : char) : bool :=
  ((9 <=? c) && (c <=? 13) || (28 <=? c) && (c <=? 32)
   || (c =? 133) || (c =? 160) || (c =? 5760)
   || (8192 <=? c) && (c <=? 8202)
   || (c =? 8232) || (c =? 8233) || (c =? 8239) || (c =? 8287)
   || (c =? 12288))%N.

(** [text.split()]: the maximal runs of non-space characters, in order.
    [cur] holds the current run, reversed. *)
Fixpoint split_from (cur : str) (s : str) : list str :=
  match s with
  | [] => match cur with [] => [] | _ => [rev cur] end
  | c :: s' =>
      if isspace c
      then match cur with
           | [] => split_from [] s'
           | _ => rev cur :: split_from [] s'
           end
      else split_from (c :: cur) s'
  end.

Definition split (text : str) : list str := split_from [] text.

(** [sep.join(parts)] *)
Fixpoint join (sep : str) (parts : list str) : str :=
  match parts with
  | [] => []
  | [p] => p
  | p :: rest => p ++ sep ++ join sep rest
  end.

(** ** Slices

    [l[start:stop]] with Python's treatment of negative and out-of-range
    bounds: a negative bound counts from the end, and both are clamped to
    [0 .. len l]. *)
Definition clamp (n i : Z) : Z :=
  if i <? 0 then Z.max 0 (i + n) else Z.min i n.

Definition slice {A} (l : list A) (start stop : Z) : list A :=
  let lo := clamp (len l) start in
  let hi := clamp (len l) stop in
  firstn (Z.to_nat (hi - lo)) (skipn (Z.to_nat lo) l).

(** ** [str(e).lower()] and the [in] test on strings

    [lower] maps A-Z to a-z.  Python also lowers letters outside ASCII, but
    none of them becomes a letter of the two ASCII patterns the source
    looks for, so the test below is not affected. *)
Definition lower_char (c : char) : char :=
  if ((65 <=? c) && (c <=? 90))%N then (c + 32)%N else c.

Definition lower (s : str) : str := map lower_char s.

Fixpoint starts_with (pat s : str) : bool :=
  match pat, s with
  | [], _ => true
  | _ :: _, [] => false
  | p :: pat', c :: s' => (p =? c)%N && starts_with pat' s'
  end.

(** [pat in s] *)
Fixpoint contains (pat s : str) : bool :=
  starts_with pat s ||
  match s with
  | [] => false
  | _ :: s' => contains pat s'
  end.

(** [s.endswith(suffix)] *)
Definition endswith (s suffix : str) : bool := starts_with (rev suffix) (rev s).

(** [s.replace(old, new)] for a non-empty [old]: occurrences are replaced
    from the left and do not overlap.  [skip] counts the characters of an
    occurrence that are still to be dropped. *)
Fixpoint replace_from (skip : nat) (old new s : str) : str :=
  match s with
  | [] => []
  | c :: s' =>
      match skip with
      | S k => replace_from k old new s'
      | O => if starts_with old s
             then new ++ replace_from (length old - 1) old new s'
             else c :: replace_from O old new s'
      end
  end.

Definition replace (s old new : str) : str := replace_from O old new s.

(** [range(start, stop, step)] for a positive [step] *)
Definition range (start stop step : Z) : list Z :=
  map (fun j => start + Z.of_nat j * step)
      (seq 0 (Z.to_nat ((stop - start + step - 1) / step))).

(** [enumerate(l)] *)
Definition enumerate {A} (l : list A) : list (Z * A) :=
  combine (map Z.of_nat (seq 0 (length l))) l.

(** The line feed, written [\n] in the source. *)
Definition nl : str := [10%N].

(** [str(n)] for an [int] *)
Definition str_of_int (z : Z) : str := lit (NilZero.string_of_int (Z.to_int z)).

(** ** Exceptions and results *)

Inductive exn :=
| Exception (msg : str)                       (* any exception, with [str(e)] *)
| HTTPException (status_code : Z) (detail : str).

Definition str_of_exn (e : exn) : str :=
  match e with
  | Exception msg => msg
  | HTTPException _ detail => detail
  end.

Inductive res (A : Type) :=
| Ok (a : A)
| Raised (e : exn).
Arguments Ok {A} a.
Arguments Raised {A} e.

(** ** Floats (binary64) *)

Definition float := spec_float.
Definition fadd : float -> float -> float := SFadd 53 1024.
Definition fmul : float -> float -> float := SFmul 53 1024.
Definition fdiv : float -> float -> float := SFdiv 53 1024.
(** The float with value [m * 2^e]. *)
Definition f64 (m e : Z) : float := binary_normalize 53 1024 m e false.

Definition is_nan (x : float) : bool :=
  match x with S754_nan => true | _ => false end.

End Py.
Import Py.

(* ===================================================================== *)
(** * embedding.py *)
(* ===================================================================== *)

Module Embedding.

Definition EMBED_DIM : Z := 768.
Definition BATCH_SIZE : Z := 100.
Definition CHUNK_SIZE : Z := 2000.
Definition CHUNK_OVERLAP : Z := 200.

(** ** chunk_by_words

    The [while] loop, one iteration per unit of fuel.  [None] means that
    the loop is still running when the fuel is spent. *)
Fixpoint chunk_loop (fuel : nat) (words : list str) (max_words overlap : Z)
    (start : Z) (chunks : list str) : option (list str) :=
  match fuel with
  | O => None
  | S fuel' =>
      if start <? len words then
        let end_ := Z.min (start + max_words) (len words) in
        let chunk := join (lit " ") (slice words start end_) in
        chunk_loop fuel' words max_words overlap
                   (start + (max_words - overlap)) (chunks ++ [chunk])
      else Some chunks
  end.

Definition chunk_by_words (fuel : nat) (text : str) (max_words overlap : Z)
    : option (list str) :=
  chunk_loop fuel (split text) max_words overlap 0 [].

(** The call [chunk_by_words(text, max_words=CHUNK_SIZE, overlap=CHUNK_OVERLAP)]
    of the two ingestion functions.  With these constants the loop ends
    within one iteration per word ([chunk_document_fuel] below), so the
    [None] branch is never taken. *)
Definition chunk_document (text : str) : list str :=
  match chunk_by_words (S (length (split text))) text CHUNK_SIZE CHUNK_OVERLAP with
  | Some chunks => chunks
  | None => []
  end.

(** *** The windows of a word sequence *)

(** The window of [max_words] words that starts at word [start]. *)
Definition window (words : list str) (max_words start : Z) : str :=
  join (lit " ") (slice words start (Z.min (start + max_words) (len words))).

(** The windows at [start], [start + step], ..., [count] of them. *)
Definition windows (words : list str) (max_words step start : Z) (count : nat)
    : list str :=
  map (fun j => window words max_words (start + Z.of_nat j * step)) (seq 0 count).

(** The number of starts [0, step, 2 step, ...] below [n]. *)
Definition chunk_count (n step : Z) : nat := Z.to_nat ((n + step - 1) / step).

(** Words [start, start + max_words) of the word sequence, joined by
    single spaces. *)
Definition word_window (words : list str) (max_words start : Z) : str :=
  join (lit " ") (firstn (Z.to_nat max_words) (skipn (Z.to_nat start) words)).

(** ** The corpus state and the records stored in it *)

Definition vector := list float.

(** The [meta] dict built by the two ingestion functions; the two keys of
    forum chunks are absent from course chunks. *)
Record meta := {
  source : str;
  type : str;
  topic_id : option Z;
  topic_title : option str;
  chunk_id : Z;
  total_chunks : Z
}.

(** [{"text": t, **m}] *)
Record entry := {
  text : str;
  entry_meta : meta
}.

(** The module's globals [index] and [metadata], together with what the
    run has done to the outside world: the number of provider calls made
    and the waits slept, in order. *)
Record world := {
  calls : nat;
  slept : list Z;
  index : list vector;
  metadata : list entry
}.

Definition initial_world : world :=
  {| calls := 0; slept := []; index := []; metadata := [] |}.

Definition tick (w : world) : world :=
  {| calls := S (calls w); slept := slept w;
     index := index w; metadata := metadata w |}.

Definition sleep (wait_time : Z) (w : world) : world :=
  {| calls := calls w; slept := slept w ++ [wait_time];
     index := index w; metadata := metadata w |}.

(** [time.sleep(secs)]: a negative length raises [ValueError]. *)
Definition time_sleep (secs : Z) (w : world) : res unit * world :=
  if secs <? 0 then (Raised (Exception (lit "sleep length must be non-negative")), w)
  else (Ok tt, sleep secs w).

(** [index.add(arr)] followed by [metadata.extend(records)] *)
Definition commit (vs : list vector) (records : list entry) (w : world) : world :=
  {| calls := calls w; slept := slept w;
     index := index w ++ vs; metadata := metadata w ++ records |}.

(** As many vectors in the index as records in the metadata list. *)
Definition lockstep (w : world) : Prop :=
  length (index w) = length (metadata w).

(** The world after [n] more provider calls and the given waits. *)
Definition after (w : world) (n : nat) (waits : list Z) : world :=
  {| calls := calls w + n; slept := slept w ++ waits;
     index := index w; metadata := metadata w |}.

(** The waits slept before the retries numbered [j+1 .. j+k]. *)
Definition waits (j k : nat) : list Z :=
  map (fun i => 10 * (Z.of_nat i + 1)) (seq j k).

(** ** ingest_markdown_files *)

(** The inner loop of both ingestion functions: one text and one [meta]
    appended per chunk, [mk idx total] being the dict literal. *)
Definition append_chunks (mk : Z -> Z -> meta) (chunks : list str)
    (batch : list str * list meta) : list str * list meta :=
  fold_left
    (fun b ic => (fst b ++ [snd ic], snd b ++ [mk (fst ic) (len chunks)]))
    (enumerate chunks) batch.

Definition course_meta (fname : str) (idx total : Z) : meta :=
  {| source := lit "Course: " ++ replace fname (lit ".md") [];
     type := lit "course_content";
     topic_id := None;
     topic_title := None;
     chunk_id := idx;
     total_chunks := total |}.

(** [markdown_dir] is [None] when the folder does not exist; otherwise it
    lists every file name of the folder with the plain text
    [load_markdown] extracts from that file. *)
Definition ingest_markdown_files (markdown_dir : option (list (str * str)))
    : list str * list meta :=
  match markdown_dir with
  | None => ([], [])
  | Some listing =>
      let files := filter (fun f => endswith (fst f) (lit ".md")) listing in
      fold_left
        (fun batch f =>
           append_chunks (course_meta (fst f)) (chunk_document (snd f)) batch)
        files ([], [])
  end.

(** ** ingest_discourse_json *)

Record post := {
  post_topic_id : Z;
  post_topic_title : option str;      (* [post.get("topic_title", "N/A")] *)
  post_number : Z;
  content : str
}.

(** The dict [topics], in insertion order: the first post of a topic
    creates its entry, every post is appended to its topic's list. *)
Fixpoint topics_add (p : post) (topics : list (Z * (str * list post)))
    : list (Z * (str * list post)) :=
  match topics with
  | [] =>
      [(post_topic_id p,
        (match post_topic_title p with Some t => t | None => lit "N/A" end, [p]))]
  | (k, (title, posts)) :: rest =>
      if k =? post_topic_id p then (k, (title, posts ++ [p])) :: rest
      else (k, (title, posts)) :: topics_add p rest
  end.

(** [sorted(posts, key=lambda x: x['post_number'])]: ascending and stable *)
Fixpoint insert_post (p : post) (sorted : list post) : list post :=
  match sorted with
  | [] => [p]
  | q :: rest =>
      if post_number q <? post_number p then q :: insert_post p rest
      else p :: q :: rest
  end.

Definition sorted_posts (posts : list post) : list post :=
  fold_right insert_post [] posts.

Definition topic_text (title : str) (posts_list : list post) : str :=
  (lit "Topic: " ++ title ++ nl ++ nl)
  ++ join (nl ++ nl ++ lit "---" ++ nl ++ nl)
       (map (fun p => lit "Post #" ++ str_of_int (post_number p)
                      ++ lit ": " ++ content p)
            posts_list).

Definition discourse_meta (tid : Z) (title : str) (idx total : Z) : meta :=
  {| source := lit "https://discourse.onlinedegree.iitm.ac.in/t/" ++ str_of_int tid;
     type := lit "discourse_post";
     topic_id := Some tid;
     topic_title := Some title;
     chunk_id := idx;
     total_chunks := total |}.

(** [discourse_file] is [None] when the file does not exist, and the
    posts [json.load] reads from it otherwise. *)
Definition ingest_discourse_json (discourse_file : option (list post))
    : list str * list meta :=
  match discourse_file with
  | None => ([], [])
  | Some posts =>
      let topics := fold_left (fun t p => topics_add p t) posts [] in
      fold_left
        (fun batch topic =>
           let '(tid, (title, ps)) := topic in
           append_chunks (discourse_meta tid title)
             (chunk_document (topic_text title (sorted_posts ps))) batch)
        topics ([], [])
  end.

(** [all_texts] and [all_meta] as [main] builds them. *)
Definition corpus (markdown_dir : option (list (str * str)))
    (discourse_file : option (list post)) : list str * list meta :=
  (fst (ingest_markdown_files markdown_dir)
     ++ fst (ingest_discourse_json discourse_file),
   snd (ingest_markdown_files markdown_dir)
     ++ snd (ingest_discourse_json discourse_file)).

(** ** The embedding client *)

(** [(np.array(left) + np.array(right)) / 2).tolist()]: element-wise in
    binary64; numpy broadcasts a one-element operand and raises
    [ValueError] on any other difference of lengths. *)
Definition average (a b : float) : float := fdiv (fadd a b) (f64 2 0).

Definition np_average (left right : vector) : res vector :=
  if (length left =? length right)%nat then
    Ok (map (fun ab => average (fst ab) (snd ab)) (combine left right))
  else match left, right with
       | [a], _ => Ok (map (fun b => average a b) right)
       | _, [b] => Ok (map (fun a => average a b) left)
       | _, _ =>
           Raised (Exception
             (lit "operands could not be broadcast together with shapes ("
              ++ str_of_int (len left) ++ lit ",) ("
              ++ str_of_int (len right) ++ lit ",) "))
       end.

(** The test of [safe_embed] on [str(e).lower()] *)
Definition is_rate_signal (e : exn) : bool :=
  contains (lit "quota") (lower (str_of_exn e))
  || contains (lit "rate") (lower (str_of_exn e)).

(** Fuel that [safe_embed] never exhausts ([safe_embed_fuel_enough]). *)
Definition fuel_for (text : str) (retry_count : Z) : nat :=
  (Z.to_nat (3 - retry_count) + 4 * length text + 1)%nat.

Section Model.

(** [genai.embed_content]: the reply to the [n]-th call of the run, an
    exception or the raw embedding. *)
Variable provider : nat -> str -> exn + list float.

(** numpy's part of [embed_text]: the cast to float32, the division by
    [np.linalg.norm] and [tolist]. *)
Variable np_normalize : list float -> vector.

(** [np.array(embs, dtype=np.float32)] followed by [index.add(arr)]:
    [Some e] when numpy or FAISS refuses the shape of [embs] and raises
    [e]; otherwise the rows are appended, cast to float32. *)
Variable index_refuses : list vector -> option exn.
Variable float32 : float -> float.

(** ** embed_text *)
Definition embed_text (text : str) (w : world) : res vector * world :=
  match provider (calls w) text with
  | inl e => (Raised e, tick w)
  | inr embedding => (Ok (np_normalize embedding), tick w)
  end.

(** ** safe_embed

    One unit of fuel per nested call; [None] when the fuel is spent. *)
Fixpoint safe_embed_fuel (fuel : nat) (text : str) (retry_count : Z) (w : world)
    : option (res vector * world) :=
  match fuel with
  | O => None
  | S fuel' =>
      match embed_text text w with
      | (Ok v, w1) => Some (Ok v, w1)
      | (Raised e, w1) =>
          if is_rate_signal e then
            if retry_count <? 3 then
              let wait_time := 10 * (retry_count + 1) in
              match time_sleep wait_time w1 with
              | (Ok _, w2) => safe_embed_fuel fuel' text (retry_count + 1) w2
              | (Raised e', w2) => Some (Raised e', w2)
              end
            else Some (Raised e, w1)
          else if len text >? 10000 then
            let mid := Z.to_nat (len text / 2) in
            match safe_embed_fuel fuel' (firstn mid text) 0 w1 with
            | None => None
            | Some (Raised e', w2) => Some (Raised e', w2)
            | Some (Ok left_, w2) =>
                match safe_embed_fuel fuel' (skipn mid text) 0 w2 with
                | None => None
                | Some (Raised e', w3) => Some (Raised e', w3)
                | Some (Ok right_, w3) => Some (np_average left_ right_, w3)
                end
            end
          else Some (Raised e, w1)
      end
  end.

(** [safe_embed(text, retry_count)].  The fuel given is never exhausted
    ([safe_embed_fuel_enough]), so the [None] branch is never taken. *)
Definition safe_embed (text : str) (retry_count : Z) (w : world)
    : res vector * world :=
  match safe_embed_fuel (fuel_for text retry_count) text retry_count w with
  | Some r => r
  | None => (Raised (Exception (lit "RecursionError")), w)
  end.

(** ** index_batch *)

(** The embedding loop: [embs] grows by one vector per text; the first
    exception ends the loop and the call. *)
Fixpoint embed_loop (texts : list str) (embs : list vector) (w : world)
    : res (list vector) * world :=
  match texts with
  | [] => (Ok embs, w)
  | text :: rest =>
      match safe_embed text 0 w with
      | (Ok emb, w1) => embed_loop rest (embs ++ [emb]) w1
      | (Raised e, w1) => (Raised e, w1)
      end
  end.

(** [[{"text": t, **m} for t, m in zip(texts, metas)]] *)
Definition records (texts : list str) (metas : list meta) : list entry :=
  map (fun tm => {| text := fst tm; entry_meta := snd tm |}) (combine texts metas).

Definition index_batch (texts : list str) (metas : list meta) (w : world)
    : res unit * world :=
  match embed_loop texts [] w with
  | (Raised e, w1) => (Raised e, w1)
  | (Ok embs, w1) =>
      match index_refuses embs with
      | Some e => (Raised e, w1)
      | None =>
          (Ok tt, commit (map (map float32) embs) (records texts metas) w1)
      end
  end.

(** ** main

    The batch loop over the offsets [range(0, len(all_texts), BATCH_SIZE)];
    an exception of [index_batch] ends the run. *)
Fixpoint run_batches (offsets : list Z) (all_texts : list str)
    (all_meta : list meta) (w : world) : res unit * world :=
  match offsets with
  | [] => (Ok tt, w)
  | i :: rest =>
      let batch_texts := slice all_texts i (i + BATCH_SIZE) in
      let batch_meta := slice all_meta i (i + BATCH_SIZE) in
      match index_batch batch_texts batch_meta w with
      | (Ok _, w1) => run_batches rest all_texts all_meta w1
      | (Raised e, w1) => (Raised e, w1)
      end
  end.

(** The run up to the point where the two stores are written to disk. *)
Definition main (markdown_dir : option (list (str * str)))
    (discourse_file : option (list post)) (w : world) : res unit * world :=
  let '(md_texts, md_meta) := ingest_markdown_files markdown_dir in
  let '(disc_texts, disc_meta) := ingest_discourse_json discourse_file in
  let all_texts := md_texts ++ disc_texts in
  let all_meta := md_meta ++ disc_meta in
  match all_texts with
  | [] => (Ok tt, w)
  | _ => run_batches (range 0 (len all_texts) BATCH_SIZE) all_texts all_meta w
  end.

End Model.

End Embedding.

(* ===================================================================== *)
(** * app.py *)
(* ===================================================================== *)

Module App.

Definition SIMILARITY_THRESHOLD : Z := 0.
Definition TOP_K_RESULTS : Z := 5.

Definition vector := list float.

(** [x >= n] for a float [x] and a small int [n] *)
Definition ge_int (x : float) (n : Z) : bool := SFleb (f64 n 0) x.

(** A record of [metadata.json] as the query path reads it:
    [meta["text"]], [meta["source"]], [meta["type"]] and
    [meta.get("chunk_id", 0)]. *)
Record meta := {
  meta_text : str;
  meta_source : str;
  meta_type : str;
  meta_chunk_id : option Z
}.

(** The dict appended to [results]. *)
Record result := {
  content : str;
  source : str;
  type : str;
  similarity : float;
  chunk_id : Z
}.

Record link := {
  url : str;
  link_text : str                         (* the key "text" *)
}.

Record response := {
  answer : str;
  links : list link
}.

(** ** search_similar *)

(** [results.sort(key=lambda x: x["similarity"], reverse=True)].
    [list.sort] compares keys with [<] only and is stable, also with
    [reverse=True]; on keys that [<] orders totally (no NaN) its result
    is the one computed here: by decreasing key, equal keys in their
    original order. *)
Fixpoint insert_desc (r : result) (sorted : list result) : list result :=
  match sorted with
  | [] => [r]
  | q :: rest =>
      if SFltb (similarity r) (similarity q) then q :: insert_desc r rest
      else r :: q :: rest
  end.

Definition sort_desc (results : list result) : list result :=
  fold_right insert_desc [] results.

(** [a] does not rank below [b]. *)
Definition not_below (a b : result) : Prop :=
  SFltb (similarity a) (similarity b) = false.

(** The results whose similarity equals [k]. *)
Definition with_similarity (k : float) (l : list result) : list result :=
  filter (fun r => SFeqb (similarity r) k) l.

Section Retrieval.

(** The global [metadata], loaded at start-up. *)
Variable metadata : list meta.

(** [index.search(query_vector, k)] on the loaded index: the exception it
    raises, or the rows [distances[0]] and [indices[0]]. *)
Variable index_search : vector -> Z -> exn + (list float * list Z).

(** One iteration of the loop over [zip(distances[0], indices[0])].
    [nth_error] is [None] exactly when [idx >= len(metadata)]. *)
Definition visit (threshold : Z) (results : list result) (cand : float * Z)
    : list result :=
  let '(dist, idx) := cand in
  if idx <? 0 then results
  else match nth_error metadata (Z.to_nat idx) with
       | None => results
       | Some m =>
           let similarity := dist in
           if ge_int similarity threshold then
             results ++ [ {| content := meta_text m;
                             source := meta_source m;
                             type := meta_type m;
                             similarity := similarity;
                             chunk_id := match meta_chunk_id m with
                                         | Some c => c
                                         | None => 0
                                         end |} ]
           else results
       end.

Definition search_similar (query_embedding : vector) (top_k : Z)
    : res (list result) :=
  match index_search query_embedding (top_k * 2) with
  | inl e => Raised (HTTPException 500 (lit "Search error: " ++ str_of_exn e))
  | inr (distances, indices) =>
      let results :=
        fold_left (visit SIMILARITY_THRESHOLD) (combine distances indices) [] in
      Ok (slice (sort_desc results) 0 top_k)
  end.

(** *** The same search without the threshold test

    Following the specification's words ("performing no threshold
    filtering at all"): every candidate in range is accepted. *)
Definition visit_unfiltered (results : list result) (cand : float * Z)
    : list result :=
  let '(dist, idx) := cand in
  if idx <? 0 then results
  else match nth_error metadata (Z.to_nat idx) with
       | None => results
       | Some m =>
           results ++ [ {| content := meta_text m;
                           source := meta_source m;
                           type := meta_type m;
                           similarity := dist;
                           chunk_id := match meta_chunk_id m with
                                       | Some c => c
                                       | None => 0
                                       end |} ]
       end.

Definition search_similar_unfiltered (query_embedding : vector) (top_k : Z)
    : res (list result) :=
  match index_search query_embedding (top_k * 2) with
  | inl e => Raised (HTTPException 500 (lit "Search error: " ++ str_of_exn e))
  | inr (distances, indices) =>
      let results := fold_left visit_unfiltered (combine distances indices) [] in
      Ok (slice (sort_desc results) 0 top_k)
  end.

(** *** The candidates that are kept *)

(** The result built from record [m] and similarity [dist]. *)
Definition result_of (m : meta) (dist : float) : result :=
  {| content := meta_text m;
     source := meta_source m;
     type := meta_type m;
     similarity := dist;
     chunk_id := match meta_chunk_id m with Some c => c | None => 0 end |}.

(** A candidate is kept when its position is one of the metadata list
    and its similarity is at least the threshold. *)
Definition kept (threshold : Z) (cand : float * Z) : list result :=
  if (0 <=? snd cand) && (snd cand <? len metadata)
     && ge_int (fst cand) threshold
  then match nth_error metadata (Z.to_nat (snd cand)) with
       | Some m => [result_of m (fst cand)]
       | None => []
       end
  else [].

(** The candidates kept, in search order. *)
Definition eligible (threshold : Z) (cands : list (float * Z)) : list result :=
  flat_map (kept threshold) cands.

End Retrieval.

(** ** generate_answer *)

(** [d[k] = v] on a dict, kept in insertion order: the value of an
    existing key is replaced in place, a new key goes to the end. *)
Fixpoint dict_set {V} (k : Z) (v : V) (d : list (Z * V)) : list (Z * V) :=
  match d with
  | [] => [(k, v)]
  | (k', v') :: rest =>
      if k' =? k then (k, v) :: rest else (k', v') :: dict_set k v rest
  end.

Definition quote : str := [34%N].

Definition no_information : str :=
  lit "I couldn't find any relevant information in my knowledge base.".

(** The loop over [enumerate(context_chunks)]: it fills [context_parts]
    and the dict [sources_used], keyed by [i+1]. *)
Definition add_source (acc : list str * list (Z * (str * str)))
    (ic : Z * result) : list str * list (Z * (str * str)) :=
  let '(i, chunk) := ic in
  let source_url := source chunk in
  (fst acc ++ [lit "[Source " ++ str_of_int (i + 1) ++ lit "]:" ++ nl
               ++ content chunk ++ nl],
   dict_set (i + 1) (source_url, slice (content chunk) 0 150) (snd acc)).

Definition build_prompt (context question : str) : str :=
  lit "You are a helpful teaching assistant. Answer the student's question using ONLY the provided context below."
  ++ nl ++ nl
  ++ lit "Context:" ++ nl
  ++ context ++ nl ++ nl
  ++ lit "Question: " ++ question ++ nl ++ nl
  ++ lit "Instructions:" ++ nl
  ++ lit "1. Provide a clear, comprehensive answer based on the context" ++ nl
  ++ lit "2. If the context doesn't contain enough information, say so" ++ nl
  ++ lit "3. Reference specific sources when making claims (e.g., "
  ++ quote ++ lit "According to Source 1..." ++ quote ++ lit ")" ++ nl
  ++ lit "4. Be concise but thorough" ++ nl ++ nl
  ++ lit "Answer:".

(** The link of a chunk: its source and the first 150 characters of its
    text. *)
Definition link_of (chunk : result) : link :=
  {| url := source chunk; link_text := firstn 150 (content chunk) |}.

(** The prompt sent for a question and a list of chunks. *)
Definition prompt_of (question : str) (context_chunks : list result) : str :=
  build_prompt
    (join nl (fst (fold_left add_source (enumerate context_chunks) ([], []))))
    question.

Section Generation.

(** [client.models.generate_content]: the reply to the [n]-th call, an
    exception or [response.text]. *)
Variable generate_content : nat -> str -> exn + str.

(** The state is the list of prompts sent to the model so far. *)
Definition generate_answer (question : str) (context_chunks : list result)
    (sent : list str) : res response * list str :=
  match context_chunks with
  | [] => (Ok {| answer := no_information; links := [] |}, sent)
  | _ =>
      let '(context_parts, sources_used) :=
        fold_left add_source (enumerate context_chunks) ([], []) in
      let context := join nl context_parts in
      let prompt := build_prompt context question in
      match generate_content (length sent) prompt with
      | inl e =>
          (Raised (HTTPException 500 (lit "Generation error: " ++ str_of_exn e)),
           sent ++ [prompt])
      | inr answer_text =>
          let links :=
            map (fun item => {| url := fst (snd item); link_text := snd (snd item) |})
                sources_used in
          (Ok {| answer := answer_text; links := links |}, sent ++ [prompt])
      end
  end.

End Generation.

End App.

(* ===================================================================== *)
(** * app.py: the query endpoint *)
(* ===================================================================== *)

Module Endpoint.
Import App.

(** What a server has done to the outside world: the number of embedding
    calls made and the prompts sent to the generative model. *)
Record session := {
  embedded : nat;
  sent : list str
}.

Section Query.

Variable metadata : list meta.
Variable index_search : vector -> Z -> exn + (list float * list Z).

(** [client.models.embed_content]: the reply to the [n]-th call, an
    exception or the values of [result.embeddings[0]]. *)
Variable embed_content : nat -> str -> exn + list float.

(** numpy's part of [get_embedding]: the cast to float32 and the division
    by [np.linalg.norm]. *)
Variable np_normalize : list float -> vector.

Variable generate_content : nat -> str -> exn + str.

(** ** get_embedding *)
Definition get_embedding (text : str) (s : session) : res vector * session :=
  let s1 := {| embedded := S (embedded s); sent := sent s |} in
  match embed_content (embedded s) text with
  | inl e =>
      (Raised (HTTPException 500 (lit "Embedding error: " ++ str_of_exn e)), s1)
  | inr values => (Ok (np_normalize values), s1)
  end.

(** The two handlers of the endpoint: an [HTTPException] is raised again
    as it is, any other exception [e] becomes
    [HTTPException(status_code=500, detail=str(e))]. *)
Definition handled {A} (r : res A) : res A :=
  match r with
  | Raised (Exception msg) => Raised (HTTPException 500 msg)
  | _ => r
  end.

(** ** query_knowledge_base, on [request.question] *)
Definition query_knowledge_base (question : str) (s : session)
    : res response * session :=
  match get_embedding question s with
  | (Raised e, s1) => (handled (Raised e), s1)
  | (Ok query_embedding, s1) =>
      match search_similar metadata index_search query_embedding TOP_K_RESULTS with
      | Raised e => (handled (Raised e), s1)
      | Ok similar_chunks =>
          let '(result, prompts) :=
            generate_answer generate_content question similar_chunks (sent s1) in
          (handled result, {| embedded := embedded s1; sent := prompts |})
      end
  end.

End Query.

(** The three stages of a query, as the details of their errors name
    them. *)
Definition stages : list str :=
  [lit "Embedding error: "; lit "Search error: "; lit "Generation error: "].

(** An error as the endpoint reports it: status 500 and a detail that
    starts with the name of the stage that failed. *)
Definition stage_error (e : exn) : Prop :=
  exists stage detail,
    In stage stages /\ e = HTTPException 500 (stage ++ detail).

End Endpoint.

(* ===================================================================== *)
(** * Vocabulary for the contents of the corpus *)
(* ===================================================================== *)

Module Contents.
Import Embedding.

(** ** Chunks *)

(** A word: a non-empty run of characters that are not white space. *)
Definition is_word (w : str) : Prop :=
  w <> [] /\ Forall (fun c => isspace c = false) w.

(** The words of the window that starts at word [start]. *)
Definition window_words (words : list str) (max_words start : Z) : list str :=
  firstn (Z.to_nat max_words) (skipn (Z.to_nat start) words).

(** ** Ingestion *)

(** The metas of the chunks of one document, [mk idx total] being the
    dict literal. *)
Definition metas_of (mk : Z -> Z -> meta) (chunks : list str) : list meta :=
  map (fun i => mk (Z.of_nat i) (len chunks)) (seq 0 (length chunks)).

(** The pair [(text, meta)] is chunk number [chunk_id] of a document cut
    into [chunks], described by [mk]. *)
Definition chunk_of (mk : Z -> Z -> meta) (chunks : list str)
    (t : str) (m : meta) : Prop :=
  0 <= chunk_id m < total_chunks m
  /\ total_chunks m = len chunks
  /\ nth_error chunks (Z.to_nat (chunk_id m)) = Some t
  /\ m = mk (chunk_id m) (total_chunks m).

(** ** Forum topics *)

(** The entry of topic [k] in the dict [topics]. *)
Fixpoint topics_get (k : Z) (topics : list (Z * (str * list post)))
    : option (str * list post) :=
  match topics with
  | [] => None
  | (k', entry) :: rest => if k' =? k then Some entry else topics_get k rest
  end.

(** The title a post gives to the topic it opens. *)
Definition title_of (p : post) : str :=
  match post_topic_title p with Some t => t | None => lit "N/A" end.

(** The dict [topics] after the grouping loop. *)
Definition grouped (posts : list post) : list (Z * (str * list post)) :=
  fold_left (fun t p => topics_add p t) posts [].

(** The posts of topic [k], in the order of the file. *)
Definition posts_of (k : Z) (posts : list post) : list post :=
  filter (fun p => post_topic_id p =? k) posts.

(** The order [sorted] puts the posts of a topic in. *)
Definition number_le (a b : post) : Prop := post_number a <= post_number b.

(** The posts numbered [n], in the order of the list. *)
Definition with_number (n : Z) (l : list post) : list post :=
  filter (fun p => post_number p =? n) l.

(** ** Embedding calls and batches *)

(** The attempts a call may make on its own text, from its counter on. *)
Definition attempts (retry_count : Z) : Z := Z.max 1 (4 - retry_count).

(** The offsets of the batch loop. *)
Definition offsets {A} (l : list A) : list Z := range 0 (len l) BATCH_SIZE.

End Contents.

(* ===================================================================== *)
(** * Concrete inputs, providers and libraries *)
(* ===================================================================== *)

Module Scenario.
Import Embedding.

(** A document of 3000 words. *)
Definition doc3000 : str := join (lit " ") (repeat (lit "w") 3000).

(** ** An instance of numpy's normalization

    The cast to float32, the norm as the square root of the squares summed
    from left to right in float32, the division, and the floats read back
    as binary64.  numpy may sum in another order, which can change the
    last bit of the norm; the runs below use vectors whose squares sum
    exactly, in any order. *)
Definition to_f32 (x : float) : float :=
  match x with
  | S754_finite s m e => binary_round 24 128 s m e
  | _ => x
  end.

Definition of_f32 (x : float) : float :=
  match x with
  | S754_finite s m e => binary_round 53 1024 s m e
  | _ => x
  end.

Definition np_normalize32 (embedding : list float) : vector :=
  let xs := map to_f32 embedding in
  let norm :=
    SFsqrt 24 128
      (fold_left (fun acc x => SFadd 24 128 acc (SFmul 24 128 x x)) xs
                 (S754_zero false)) in
  map (fun x => of_f32 (SFdiv 24 128 x norm)) xs.

(** The sum of the squares of a vector, in binary64. *)
Definition sq_norm (v : vector) : float :=
  fold_left (fun acc x => fadd acc (fmul x x)) v (S754_zero false).

Definition zero : float := S754_zero false.
Definition one : float := f64 1 0.
Definition half : float := f64 1 (-1).

(** Two unit vectors of the provider's dimension. *)
Definition unit_0 : list float := one :: repeat zero 767.
Definition unit_1 : list float := zero :: one :: repeat zero 766.

(** ** Three rate-limit failures, then a reply *)

Definition rate_limited : exn :=
  Exception (lit "429 Resource has been exhausted (e.g. check quota).").

Definition provider_three_failures (n : nat) (text : str) : exn + list float :=
  if (n <? 3)%nat then inl rate_limited else inr unit_0.

(** ** A provider that refuses texts of more than 10,000 characters *)

Definition too_large : exn :=
  Exception (lit "400 Request payload size exceeds the limit.").

(** It embeds the texts that start with the letter a to [unit_0] and the
    others to [unit_1]. *)
Definition provider_size_limit (n : nat) (text : str) : exn + list float :=
  if len text >? 10000 then inl too_large
  else match text with
       | 97%N :: _ => inr unit_0
       | _ => inr unit_1
       end.

(** A text of 12,000 characters: 6,000 times a, then 6,000 times b. *)
Definition text12000 : str :=
  repeat 97%N (Z.to_nat 6000) ++ repeat 98%N (Z.to_nat 6000).

(** A provider that always replies. *)
Definition provider_steady (n : nat) (text : str) : exn + list float :=
  inr unit_0.

(** A provider that never stops signalling the rate limit. *)
Definition provider_exhausted (n : nat) (text : str) : exn + list float :=
  inl rate_limited.

(** ** numpy and FAISS on a batch

    [index.add] takes a batch that is not empty and whose rows all have
    the dimension of the index. *)
Definition faiss_refuses (embs : list vector) : option exn :=
  match embs with
  | [] => Some (Exception (lit "not enough values to unpack (expected 2, got 1)"))
  | _ => if forallb (fun v => len v =? EMBED_DIM) embs then None
         else Some (Exception [])
  end.

(** ** A small corpus: one course file, a file that is not markdown, and
    a forum topic of two posts *)
Definition course_files : list (str * str) :=
  [(lit "week1.md", lit "Retrieval augmented generation in three steps");
   (lit "notes.txt", lit "not a markdown file")].

Definition forum_posts : list post :=
  [ {| post_topic_id := 42; post_topic_title := Some (lit "Project deadline");
       post_number := 2; content := lit "It is on Friday." |};
    {| post_topic_id := 42; post_topic_title := None;
       post_number := 1; content := lit "When is the deadline?" |} ].

(** ** A loaded corpus of three records and searches on it *)
Definition record_0 : App.meta :=
  {| App.meta_text := lit "Chunking splits a document into word windows.";
     App.meta_source := lit "Course: week1";
     App.meta_type := lit "course_content";
     App.meta_chunk_id := Some 0 |}.

Definition record_1 : App.meta :=
  {| App.meta_text := lit "Topic: Project deadline";
     App.meta_source := lit "https://discourse.onlinedegree.iitm.ac.in/t/42";
     App.meta_type := lit "discourse_post";
     App.meta_chunk_id := None |}.

Definition record_2 : App.meta :=
  {| App.meta_text := lit "Embeddings are unit vectors.";
     App.meta_source := lit "Course: week2";
     App.meta_type := lit "course_content";
     App.meta_chunk_id := Some 3 |}.

Definition loaded_metadata : list App.meta := [record_0; record_1; record_2].

(** FAISS fills the rows up to [k] entries with position [-1] and the
    lowest float32. *)
Definition lowest : float := SFopp (f64 16777215 104).

Definition padded (k : Z) (hits : list (float * Z)) : list float * list Z :=
  let shown := firstn (Z.to_nat k) hits in
  let missing := (Z.to_nat k - length shown)%nat in
  (map fst shown ++ repeat lowest missing, map snd shown ++ repeat (-1) missing).

(** Three hits, two of them with the same similarity. *)
Definition search_ties (query : App.vector) (k : Z) : exn + (list float * list Z) :=
  inr (padded k [(f64 3 (-2), 1); (half, 0); (half, 2)]).

(** Two hits, the second with a negative inner product. *)
Definition search_negative (query : App.vector) (k : Z)
    : exn + (list float * list Z) :=
  inr (padded k [(half, 0); (SFopp half, 1)]).

End Scenario.

(* ===================================================================== *)
(** * More concrete inputs *)
(* ===================================================================== *)

Module Cases.
Import Embedding Scenario.

(** Five words, with a tab, a line feed and two spaces between some. *)
Definition sentence : str :=
  lit "one two" ++ [9%N] ++ lit "three" ++ nl ++ lit "four  five".

(** A failure that is no rate-limit signal. *)
Definition internal_error : exn := Exception (lit "500 Internal error.").

(** A provider that replies to the first call and fails on the others. *)
Definition provider_fails_later (n : nat) (text : str) : exn + list float :=
  match n with
  | O => inr unit_0
  | _ => inl internal_error
  end.

(** A failure whose message has the letters of "rate" inside a word. *)
Definition cannot_generate : exn :=
  Exception (lit "Failed to gene" ++ lit "rate" ++ lit " the embedding.").

(** The services of a query that goes through. *)
Definition embed_query (n : nat) (text : str) : exn + list float := inr unit_0.

Definition generate_reply (n : nat) (prompt : str) : exn + str :=
  inr (lit "See Source 1.").

Definition fresh : Endpoint.session :=
  {| Endpoint.embedded := 0; Endpoint.sent := [] |}.

Definition deadline_question : str := lit "When is the deadline?".

End Cases.


(* ===================================================================== *)
(** * Properties of the chunker *)
(* ===================================================================== *)

Section Chunker.
Import Embedding.

Lemma windows_S words max_words step start count :
  windows words max_words step start (S count)
  = window words max_words start
    :: windows words max_words step (start + step) count.
Proof.
  unfold windows. cbn [seq map]. f_equal.
  - f_equal. lia.
  - rewrite <- seq_shift, map_map. apply map_ext. intros j. f_equal. lia.
Qed.

Lemma chunk_loop_stuck words max_words overlap :
  max_words - overlap <= 0 ->
  forall fuel start chunks,
    start < len words ->
    chunk_loop fuel words max_words overlap start chunks = None.
Proof.
  intros Hstep. induction fuel as [|fuel IH]; intros start chunks Hlt.
  - reflexivity.
  - cbn [chunk_loop]. apply Z.ltb_lt in Hlt as Hb. rewrite Hb.
    apply IH. lia.
Qed.

Lemma chunk_loop_windows words max_words overlap :
  0 < max_words - overlap ->
  forall count fuel start chunks,
    Z.to_nat ((len words - start + (max_words - overlap) - 1)
              / (max_words - overlap)) = count ->
    (count < fuel)%nat ->
    chunk_loop fuel words max_words overlap start chunks
    = Some (chunks ++ windows words max_words (max_words - overlap) start count).
Proof.
  intros Hstep. set (step := max_words - overlap) in *.
  induction count as [|count IH]; intros fuel start chunks Hq Hfuel.
  - destruct fuel as [|fuel]; [lia|]. cbn [chunk_loop].
    assert (Hge : len words <= start).
    { destruct (Z_lt_le_dec start (len words)) as [Hlt|]; [|assumption].
      exfalso.
      assert (1 <= (len words - start + step - 1) / step).
      { apply Z.div_le_lower_bound; lia. }
      lia. }
    apply Z.ltb_ge in Hge. rewrite Hge.
    unfold windows. cbn. now rewrite app_nil_r.
  - destruct fuel as [|fuel]; [lia|]. cbn [chunk_loop].
    assert (Hlt : start < len words).
    { destruct (Z_lt_le_dec start (len words)) as [|Hge]; [assumption|].
      exfalso.
      assert ((len words - start + step - 1) / step <= 0).
      { apply Z.lt_succ_r. apply Z.div_lt_upper_bound; lia. }
      lia. }
    apply Z.ltb_lt in Hlt as Hb. rewrite Hb.
    fold step. rewrite (IH fuel (start + step)); [| |lia].
    + rewrite windows_S, <- app_assoc. reflexivity.
    + replace (len words - (start + step) + step - 1)
        with (len words - start + step - 1 + (-1) * step) by lia.
      rewrite Z.div_add by lia. lia.
Qed.

Lemma chunk_count_le n step : 0 <= n -> 0 < step -> (chunk_count n step <= Z.to_nat n)%nat.
Proof.
  intros Hn Hs. unfold chunk_count. apply Z2Nat.inj_le.
  - apply Z.div_pos; lia.
  - lia.
  - apply Z.lt_succ_r. apply Z.div_lt_upper_bound; [lia|]. nia.
Qed.

Lemma chunk_by_words_windows fuel text max_words overlap :
  0 < max_words - overlap ->
  (length (split text) < fuel)%nat ->
  chunk_by_words fuel text max_words overlap
  = Some (windows (split text) max_words (max_words - overlap) 0
            (chunk_count (len (split text)) (max_words - overlap))).
Proof.
  intros Hstep Hfuel. unfold chunk_by_words.
  rewrite (chunk_loop_windows _ _ _ Hstep
             (chunk_count (len (split text)) (max_words - overlap))).
  - reflexivity.
  - unfold chunk_count. f_equal. f_equal. lia.
  - pose proof (chunk_count_le (len (split text)) (max_words - overlap)).
    unfold len in *. lia.
Qed.

Lemma chunk_document_fuel text :
  chunk_by_words (S (length (split text))) text CHUNK_SIZE CHUNK_OVERLAP
  = Some (chunk_document text).
Proof.
  unfold chunk_document.
  rewrite chunk_by_words_windows; [reflexivity | reflexivity | lia].
Qed.

Lemma chunk_document_windows text :
  chunk_document text
  = windows (split text) CHUNK_SIZE (CHUNK_SIZE - CHUNK_OVERLAP) 0
      (chunk_count (len (split text)) (CHUNK_SIZE - CHUNK_OVERLAP)).
Proof.
  unfold chunk_document.
  rewrite chunk_by_words_windows; [reflexivity | reflexivity | lia].
Qed.

End Chunker.

Section ChunkerClaims.
Import Embedding.

Lemma slice_window {A} (l : list A) (start w : Z) :
  0 <= start -> 0 <= w ->
  slice l start (Z.min (start + w) (len l))
  = firstn (Z.to_nat w) (skipn (Z.to_nat start) l).
Proof.
  intros Hs Hw. unfold slice, clamp, len.
  set (n := Z.of_nat (length l)).
  assert (Hn : 0 <= n) by (unfold n; lia).
  destruct (Z.ltb_spec start 0) as [|_]; [lia|].
  destruct (Z.ltb_spec (Z.min (start + w) n) 0) as [|_]; [lia|].
  destruct (Z_le_gt_dec start n) as [Hle|Hgt].
  - rewrite (Z.min_l start n) by lia.
    destruct (Z_le_gt_dec (start + w) n) as [Hle'|Hgt'].
    + f_equal. lia.
    + rewrite !firstn_all2; [reflexivity| |]; rewrite length_skipn; unfold n in *; lia.
  - rewrite !skipn_all2 by (unfold n in *; lia). now rewrite !firstn_nil.
Qed.

Lemma window_word_window words max_words start :
  0 <= start -> 0 <= max_words ->
  window words max_words start = word_window words max_words start.
Proof.
  intros. unfold window, word_window. now rewrite slice_window.
Qed.

Lemma windows_word_windows words max_words step count :
  0 <= step -> 0 <= max_words ->
  windows words max_words step 0 count
  = map (fun j => word_window words max_words (Z.of_nat j * step)) (seq 0 count).
Proof.
  intros. unfold windows. apply map_ext. intros j.
  rewrite Z.add_0_l. apply window_word_window; nia.
Qed.

Lemma chunk_count_pos n step :
  0 < n -> 0 < step ->
  (0 < chunk_count n step)%nat
  /\ Z.of_nat (chunk_count n step - 1) * step < n
  /\ n <= Z.of_nat (chunk_count n step - 1) * step + step.
Proof.
  intros Hn Hs. unfold chunk_count.
  set (q := (n + step - 1) / step).
  assert (Hq1 : 1 <= q) by (apply Z.div_le_lower_bound; lia).
  assert (Hmul : step * q <= n + step - 1) by (apply Z.mul_div_le; lia).
  assert (Hlt : n + step - 1 < step * (q + 1)).
  { pose proof (Z.mod_pos_bound (n + step - 1) step Hs).
    pose proof (Z.div_mod (n + step - 1) step ltac:(lia)). fold q in H0. lia. }
  repeat split; try lia.
  all: replace (Z.of_nat (Z.to_nat q - 1)) with (q - 1) by lia; nia.
Qed.

Lemma chunk_count_below n step (j : nat) :
  0 <= n -> 0 < step ->
  (j < chunk_count n step)%nat <-> Z.of_nat j * step < n.
Proof.
  intros Hn Hs. unfold chunk_count.
  set (q := (n + step - 1) / step).
  assert (Hq0 : 0 <= q) by (apply Z.div_pos; lia).
  assert (Hmul : step * q <= n + step - 1) by (apply Z.mul_div_le; lia).
  assert (Hlt : n + step - 1 < step * (q + 1)).
  { pose proof (Z.mod_pos_bound (n + step - 1) step Hs).
    pose proof (Z.div_mod (n + step - 1) step ltac:(lia)). fold q in H0. lia. }
  split; intros H.
  - assert (Z.of_nat j + 1 <= q) by lia. nia.
  - assert (Z.of_nat j < q) by nia. lia.
Qed.

Lemma append_chunks_pair mk (c0 c1 : str) :
  append_chunks mk [c0; c1] ([], []) = ([c0; c1], [mk 0 2; mk 1 2]).
Proof. reflexivity. Qed.

End ChunkerClaims.

Section ChunkerTheorems.
Import Embedding Scenario.

(** C5 (as the code has it): [chunk_by_words] has no check of its
    parameters.  When [max_words - overlap <= 0], a text without words
    gives the empty list, and on a text with at least one word the loop
    never ends: no amount of fuel yields a result, and no error is
    raised. *)
Theorem chunk_by_words_nonadvancing text max_words overlap :
  max_words - overlap <= 0 ->
  (split text = [] ->
   forall fuel, chunk_by_words (S fuel) text max_words overlap = Some [])
  /\ (split text <> [] ->
      forall fuel, chunk_by_words fuel text max_words overlap = None).
Proof.
  intros Hstep. unfold chunk_by_words. split.
  - intros Hw fuel. rewrite Hw. reflexivity.
  - intros Hw fuel. apply chunk_loop_stuck; [assumption|].
    unfold len. destruct (split text); [congruence | cbn; lia].
Qed.

Lemma chunk_by_words_nonadvancing_witness :
  chunk_by_words 1000 (lit "a b") 3 3 = None
  /\ chunk_by_words 1 (lit "  ") 3 3 = Some [].
Proof.
  destruct (chunk_by_words_nonadvancing (lit "a b") 3 3 ltac:(lia)) as [_ H1].
  destruct (chunk_by_words_nonadvancing (lit "  ") 3 3 ltac:(lia)) as [H2 _].
  split.
  - apply H1. vm_compute. discriminate.
  - apply H2. reflexivity.
Defined.

(** C5, counterexample: with [max_words = overlap = 1] the parameters are
    not rejected; on the one-word text "a" the loop is still running
    after any number of iterations. *)
Lemma chunk_by_words_not_rejected :
  1 - 1 <= 0
  /\ forall fuel, chunk_by_words fuel (lit "a") 1 1 = None.
Proof.
  split; [lia|]. intros fuel. unfold chunk_by_words.
  apply chunk_loop_stuck; [lia | reflexivity].
Qed.

(** C6 (amended on empty input): for [max_words > overlap >= 0],
    [chunk_by_words] returns, after at most one iteration per word, the
    windows of words [start, start + max_words) joined by single spaces,
    for the starts [0, step, 2 step, ...] that are below the word count
    and no other, where [step = max_words - overlap].  A text without
    words (empty or only white space) gives no chunk; a text with at
    least one word gives at least one, and the last window reaches the
    last word.  A document of 3000 words with window 2000 and overlap 200
    gives two chunks, words 0..1999 and words 1800..2999, which
    [ingest_markdown_files] records with [chunk_id] 0 and 1 and
    [total_chunks] 2. *)
Theorem chunk_by_words_windows_spec text max_words overlap :
  0 <= overlap < max_words ->
  let words := split text in
  let step := max_words - overlap in
  let count := chunk_count (len words) step in
  (forall fuel, (length words < fuel)%nat ->
     chunk_by_words fuel text max_words overlap
     = Some (map (fun j => word_window words max_words (Z.of_nat j * step))
                 (seq 0 count)))
  /\ (forall j : nat, (j < count)%nat <-> Z.of_nat j * step < len words)
  /\ (words = [] -> count = 0%nat)
  /\ (words <> [] ->
      (0 < count)%nat
      /\ Z.of_nat (count - 1) * step < len words
         <= Z.of_nat (count - 1) * step + max_words)
  /\ (length words = 3000%nat -> max_words = 2000 -> overlap = 200 ->
      forall fuel, (3000 < fuel)%nat ->
        chunk_by_words fuel text max_words overlap
        = Some [join (lit " ") (firstn 2000 words);
                join (lit " ") (skipn 1800 words)])
  /\ (length words = 3000%nat ->
      forall fname, endswith fname (lit ".md") = true ->
        ingest_markdown_files (Some [(fname, text)])
        = ([join (lit " ") (firstn 2000 words);
            join (lit " ") (skipn 1800 words)],
           [course_meta fname 0 2; course_meta fname 1 2])).
Proof.
  intros Hpar words step count.
  assert (Hstep : 0 < max_words - overlap) by lia.
  assert (Hrun : forall fuel, (length words < fuel)%nat ->
     chunk_by_words fuel text max_words overlap
     = Some (map (fun j => word_window words max_words (Z.of_nat j * step))
                 (seq 0 count))).
  { intros fuel Hfuel.
    rewrite chunk_by_words_windows by assumption.
    fold words step count. rewrite windows_word_windows by lia. reflexivity. }
  assert (H3000 : length words = 3000%nat ->
     map (fun j => word_window words 2000 (Z.of_nat j * 1800))
         (seq 0 (chunk_count (len words) 1800))
     = [join (lit " ") (firstn 2000 words); join (lit " ") (skipn 1800 words)]).
  { intros Hlen. unfold len. rewrite Hlen.
    change (chunk_count (Z.of_nat 3000) 1800) with 2%nat.
    cbn [seq map].
    assert (E : word_window words 2000 (Z.of_nat 1 * 1800)
                = join (lit " ") (skipn 1800 words)).
    { unfold word_window. f_equal.
      change (Z.to_nat (Z.of_nat 1 * 1800)) with 1800%nat.
      apply firstn_all2. rewrite length_skipn, Hlen. lia. }
    rewrite E. reflexivity. }
  split; [exact Hrun|]. split; [|split; [|split; [|split]]].
  - intros j. apply chunk_count_below; [unfold len; lia | assumption].
  - intros Hw. unfold count. rewrite Hw. unfold chunk_count, step.
    change (len (@nil str)) with 0.
    rewrite Z.div_small by lia. reflexivity.
  - intros Hw.
    assert (Hn : 0 < len words).
    { unfold len. destruct words; [congruence | cbn; lia]. }
    destruct (chunk_count_pos (len words) step Hn Hstep) as (H1 & H2 & H3).
    fold count in H1, H2, H3. unfold step in *. repeat split; lia.
  - intros Hlen -> -> fuel Hfuel.
    rewrite Hrun by lia. unfold count, step.
    change (2000 - 200) with 1800. now rewrite H3000.
  - intros Hlen fname Hmd.
    unfold ingest_markdown_files. cbn [filter fst snd]. rewrite Hmd.
    cbn [fold_left fst snd]. rewrite chunk_document_windows.
    fold words. rewrite windows_word_windows by (vm_compute; discriminate).
    change (CHUNK_SIZE - CHUNK_OVERLAP) with 1800.
    change CHUNK_SIZE with 2000.
    rewrite H3000 by assumption. apply append_chunks_pair.
Qed.

Lemma chunk_by_words_windows_spec_witness :
  chunk_by_words 10 (lit "a b  c d e") 3 1
  = Some [lit "a b c"; lit "c d e"; lit "e"]
  /\ snd (ingest_markdown_files (Some [(lit "week1.md", doc3000)]))
     = [course_meta (lit "week1.md") 0 2; course_meta (lit "week1.md") 1 2].
Proof.
  split.
  - destruct (chunk_by_words_windows_spec (lit "a b  c d e") 3 1 ltac:(lia))
      as [H _].
    exact (H 10%nat ltac:(vm_compute; lia)).
  - destruct (chunk_by_words_windows_spec doc3000 2000 200 ltac:(lia))
      as (_ & _ & _ & _ & _ & H).
    rewrite (H ltac:(vm_compute; reflexivity) (lit "week1.md")
               ltac:(vm_compute; reflexivity)).
    reflexivity.
Defined.

(** C6, counterexample: the text " " is not empty, yet it has no word and
    gives no chunk. *)
Lemma chunk_by_words_blank_text :
  lit " " <> []
  /\ 0 <= 200 < 2000
  /\ chunk_by_words 1 (lit " ") 2000 200 = Some [].
Proof.
  split; [discriminate|]. split; [lia|]. reflexivity.
Qed.

End ChunkerTheorems.

(* ===================================================================== *)
(** * Properties of the embedding client *)
(* ===================================================================== *)

Section EmbeddingClient.
Import Embedding.

Variable provider : nat -> str -> exn + list float.
Variable np_normalize : list float -> vector.

Abbreviation embed_text := (embed_text provider np_normalize).
Abbreviation safe_embed_fuel := (safe_embed_fuel provider np_normalize).
Abbreviation safe_embed := (safe_embed provider np_normalize).

(** The two ways in which [safe_embed] calls itself make [fuel_for]
    smaller. *)
Lemma fuel_for_retry text retry_count :
  retry_count < 3 ->
  (fuel_for text (retry_count + 1) < fuel_for text retry_count)%nat.
Proof. intros. unfold fuel_for. lia. Qed.

Lemma halves_shorter (text : str) :
  len text > 10000 ->
  let mid := Z.to_nat (len text / 2) in
  (length (firstn mid text) < length text)%nat
  /\ (length (skipn mid text) < length text)%nat.
Proof.
  intros Hlen mid. unfold len in *.
  assert (H1 : (0 < mid)%nat).
  { unfold mid. assert (1 <= Z.of_nat (length text) / 2)
      by (apply Z.div_le_lower_bound; lia). lia. }
  assert (H2 : (mid < length text)%nat).
  { unfold mid. assert (Z.of_nat (length text) / 2 < Z.of_nat (length text))
      by (apply Z.div_lt_upper_bound; lia).
    assert (0 <= Z.of_nat (length text) / 2) by (apply Z.div_pos; lia). lia. }
  rewrite length_firstn, length_skipn. lia.
Qed.

Lemma fuel_for_half (text half : str) retry_count :
  (length half < length text)%nat ->
  (fuel_for half 0 < fuel_for text retry_count)%nat.
Proof. intros. unfold fuel_for. lia. Qed.

Lemma safe_embed_fuel_returns fuel :
  forall text retry_count w,
    (fuel_for text retry_count <= fuel)%nat ->
    exists r, safe_embed_fuel fuel text retry_count w = Some r.
Proof.
  induction fuel as [|fuel IH]; intros text rc w Hfuel.
  - unfold fuel_for in Hfuel. lia.
  - cbn [Embedding.safe_embed_fuel].
    destruct (embed_text text w) as [[v|e] w1]; [eauto|].
    destruct (is_rate_signal e).
    + destruct (Z.ltb_spec rc 3) as [Hrc|_]; [|eauto].
      cbv zeta. destruct (time_sleep _ w1) as [[[]|e'] w2]; [|eauto].
      apply IH. pose proof (fuel_for_retry text rc Hrc). lia.
    + destruct (Z.gtb_spec (len text) 10000) as [Hlen|_]; [|eauto].
      destruct (halves_shorter text ltac:(lia)) as [Hl Hr].
      set (mid := Z.to_nat (len text / 2)) in *.
      destruct (IH (firstn mid text) 0 w1) as [[[l|e1] w2] ->];
        [pose proof (fuel_for_half text _ rc Hl); lia | | eauto].
      destruct (IH (skipn mid text) 0 w2) as [[[r|e2] w3] ->];
        [pose proof (fuel_for_half text _ rc Hr); lia | | ]; eauto.
Qed.

Lemma safe_embed_fuel_mono fuel :
  forall text retry_count w r,
    safe_embed_fuel fuel text retry_count w = Some r ->
    forall fuel', (fuel <= fuel')%nat ->
      safe_embed_fuel fuel' text retry_count w = Some r.
Proof.
  induction fuel as [|fuel IH]; intros text rc w r Hrun fuel' Hle;
    [discriminate|].
  destruct fuel' as [|fuel']; [lia|].
  cbn [Embedding.safe_embed_fuel] in *.
  destruct (embed_text text w) as [[v|e] w1]; [assumption|].
  destruct (is_rate_signal e).
  - destruct (rc <? 3); [|assumption]. cbv zeta in *.
    destruct (time_sleep _ w1) as [[[]|e'] w2]; [|assumption].
    apply (IH _ _ _ _ Hrun). lia.
  - destruct (len text >? 10000); [|assumption].
    set (mid := Z.to_nat (len text / 2)) in *.
    destruct (safe_embed_fuel fuel (firstn mid text) 0 w1)
      as [[[l|e1] w2]|] eqn:El; [| |discriminate].
    + rewrite (IH _ _ _ _ El fuel') by lia.
      destruct (safe_embed_fuel fuel (skipn mid text) 0 w2)
        as [[[r'|e2] w3]|] eqn:Er; [| |discriminate];
        rewrite (IH _ _ _ _ Er fuel') by lia; assumption.
    + rewrite (IH _ _ _ _ El fuel') by lia. assumption.
Qed.

(** With the fuel of [fuel_for] or more, the result is that of
    [safe_embed]. *)
Lemma safe_embed_fuel_enough fuel text retry_count w :
  (fuel_for text retry_count <= fuel)%nat ->
  safe_embed_fuel fuel text retry_count w = Some (safe_embed text retry_count w).
Proof.
  intros Hfuel. unfold Embedding.safe_embed.
  destruct (safe_embed_fuel_returns (fuel_for text retry_count) text retry_count w
              (Nat.le_refl _)) as [r Hr].
  rewrite Hr. apply (safe_embed_fuel_mono _ _ _ _ _ Hr). assumption.
Qed.

(** [safe_embed] satisfies the equation of the source: its body, with the
    nested calls read as calls of [safe_embed]. *)
Lemma safe_embed_eq text retry_count w :
  safe_embed text retry_count w =
  match embed_text text w with
  | (Ok v, w1) => (Ok v, w1)
  | (Raised e, w1) =>
      if is_rate_signal e then
        if retry_count <? 3 then
          let wait_time := 10 * (retry_count + 1) in
          match time_sleep wait_time w1 with
          | (Ok _, w2) => safe_embed text (retry_count + 1) w2
          | (Raised e', w2) => (Raised e', w2)
          end
        else (Raised e, w1)
      else if len text >? 10000 then
        let mid := Z.to_nat (len text / 2) in
        match safe_embed (firstn mid text) 0 w1 with
        | (Raised e', w2) => (Raised e', w2)
        | (Ok left_, w2) =>
            match safe_embed (skipn mid text) 0 w2 with
            | (Raised e', w3) => (Raised e', w3)
            | (Ok right_, w3) => (np_average left_ right_, w3)
            end
        end
      else (Raised e, w1)
  end.
Proof.
  assert (Hs : safe_embed_fuel (fuel_for text retry_count) text retry_count w
               = Some (safe_embed text retry_count w))
    by (apply safe_embed_fuel_enough; lia).
  assert (HS : exists f, fuel_for text retry_count = S f)
    by (unfold fuel_for; exists (Z.to_nat (3 - retry_count) + 4 * length text)%nat; lia).
  destruct HS as [f Hf]. rewrite Hf in Hs.
  cbn [Embedding.safe_embed_fuel] in Hs.
  destruct (embed_text text w) as [[v|e] w1]; [congruence|].
  destruct (is_rate_signal e).
  - destruct (Z.ltb_spec retry_count 3) as [Hrc|_]; [|congruence].
    cbv zeta in *.
    destruct (time_sleep _ w1) as [[[]|e'] w2]; [|congruence].
    rewrite safe_embed_fuel_enough in Hs; [congruence|].
    pose proof (fuel_for_retry text retry_count Hrc). lia.
  - destruct (Z.gtb_spec (len text) 10000) as [Hlen|_]; [|congruence].
    destruct (halves_shorter text ltac:(lia)) as [Hl Hr].
    cbv zeta in *. set (mid := Z.to_nat (len text / 2)) in *.
    rewrite safe_embed_fuel_enough in Hs
      by (pose proof (fuel_for_half text _ retry_count Hl); lia).
    destruct (safe_embed (firstn mid text) 0 w1) as [[l|e1] w2]; [|congruence].
    rewrite safe_embed_fuel_enough in Hs
      by (pose proof (fuel_for_half text _ retry_count Hr); lia).
    destruct (safe_embed (skipn mid text) 0 w2) as [[r|e2] w3]; congruence.
Qed.


(** What the fallback branch returns: the average of the embeddings of
    the two halves as [np_average] computes it, with no further
    normalization. *)
Lemma safe_embed_oversized text retry_count w e l r w2 w3 :
  provider (calls w) text = inl e ->
  is_rate_signal e = false ->
  len text > 10000 ->
  let mid := Z.to_nat (len text / 2) in
  safe_embed (firstn mid text) 0 (tick w) = (Ok l, w2) ->
  safe_embed (skipn mid text) 0 w2 = (Ok r, w3) ->
  safe_embed text retry_count w = (np_average l r, w3).
Proof.
  intros Hp He Hlen mid Hl Hr. rewrite safe_embed_eq.
  unfold Embedding.embed_text. rewrite Hp, He.
  destruct (Z.gtb_spec (len text) 10000) as [_|]; [|lia].
  cbv zeta. fold mid. now rewrite Hl, Hr.
Qed.

Lemma time_sleep_wait secs w :
  0 <= secs -> time_sleep secs w = (Ok tt, sleep secs w).
Proof.
  intros H. unfold time_sleep. destruct (Z.ltb_spec secs 0); [lia|reflexivity].
Qed.

Lemma after_tick w : tick w = after w 1 [].
Proof.
  unfold tick, after. rewrite app_nil_r. f_equal. lia.
Qed.

Lemma after_sleep_tick w wait n waits :
  after (sleep wait (tick w)) n waits = after w (S n) (wait :: waits).
Proof.
  unfold after, sleep, tick. cbn. rewrite <- app_assoc. f_equal. lia.
Qed.

(** [k] rate-limit failures, then a reply: the reply is returned as long
    as the counter stays within the cap. *)
Lemma retry_then_reply text raw (e : nat -> exn) :
  (forall i, is_rate_signal (e i) = true) ->
  forall k j w,
    (j + k <= 3)%nat ->
    (forall i, (i < k)%nat -> provider (calls w + i) text = inl (e (j + i)%nat)) ->
    provider (calls w + k) text = inr raw ->
    safe_embed text (Z.of_nat j) w
    = (Ok (np_normalize raw), after w (S k) (waits j k)).
Proof.
  intros Hrate. induction k as [|k IH]; intros j w Hjk Hfail Hok.
  - rewrite safe_embed_eq. unfold Embedding.embed_text.
    rewrite Nat.add_0_r in Hok. rewrite Hok. now rewrite after_tick.
  - rewrite safe_embed_eq. unfold Embedding.embed_text.
    pose proof (Hfail 0%nat ltac:(lia)) as H0.
    rewrite !Nat.add_0_r in H0. rewrite H0, Hrate.
    destruct (Z.ltb_spec (Z.of_nat j) 3) as [_|]; [|lia].
    cbv zeta. rewrite time_sleep_wait by lia.
    replace (Z.of_nat j + 1) with (Z.of_nat (S j)) by lia.
    rewrite IH.
    + rewrite after_sleep_tick. unfold waits. cbn [seq map].
      replace (Z.of_nat j + 1) with (Z.of_nat (S j)) by lia. reflexivity.
    + lia.
    + intros i Hi. cbn [calls sleep tick].
      replace (S (calls w) + i)%nat with (calls w + S i)%nat by lia.
      rewrite Hfail by lia. f_equal. f_equal. lia.
    + cbn [calls sleep tick].
      replace (S (calls w) + k)%nat with (calls w + S k)%nat by lia.
      assumption.
Qed.

(** Rate-limit failures up to and including the attempt made with the
    counter at 3: the last failure is raised. *)
Lemma retry_exhausted text (e : nat -> exn) :
  (forall i, is_rate_signal (e i) = true) ->
  forall k j w,
    (j + k = 3)%nat ->
    (forall i, (i <= k)%nat -> provider (calls w + i) text = inl (e (j + i)%nat)) ->
    safe_embed text (Z.of_nat j) w
    = (Raised (e 3%nat), after w (S k) (waits j k)).
Proof.
  intros Hrate. induction k as [|k IH]; intros j w Hjk Hfail.
  - rewrite safe_embed_eq. unfold Embedding.embed_text.
    pose proof (Hfail 0%nat ltac:(lia)) as H0.
    rewrite !Nat.add_0_r in H0. rewrite H0, Hrate.
    destruct (Z.ltb_spec (Z.of_nat j) 3) as [|_]; [lia|].
    rewrite after_tick. replace j with 3%nat by lia. reflexivity.
  - rewrite safe_embed_eq. unfold Embedding.embed_text.
    pose proof (Hfail 0%nat ltac:(lia)) as H0.
    rewrite !Nat.add_0_r in H0. rewrite H0, Hrate.
    destruct (Z.ltb_spec (Z.of_nat j) 3) as [_|]; [|lia].
    cbv zeta. rewrite time_sleep_wait by lia.
    replace (Z.of_nat j + 1) with (Z.of_nat (S j)) by lia.
    rewrite IH.
    + rewrite after_sleep_tick. unfold waits. cbn [seq map].
      replace (Z.of_nat j + 1) with (Z.of_nat (S j)) by lia. reflexivity.
    + lia.
    + intros i Hi. cbn [calls sleep tick].
      replace (S (calls w) + i)%nat with (calls w + S i)%nat by lia.
      rewrite Hfail by lia. f_equal. f_equal. lia.
Qed.

(** C2 (amended on the cap): the cap of 3 bounds the retries, not the
    attempts.  For every text, up to three consecutive rate-limit
    failures followed by a reply give that reply (normalized), after
    waits of 10, 20 and 30 seconds, one per failure; four consecutive
    rate-limit failures exhaust the retries, and the fourth failure
    reaches the caller after the same three waits, whatever a fifth
    attempt would have returned. *)
Theorem safe_embed_retry_cap text w (e : nat -> exn) raw :
  (forall i, is_rate_signal (e i) = true) ->
  (forall k, (k <= 3)%nat ->
     (forall i, (i < k)%nat -> provider (calls w + i) text = inl (e i)) ->
     provider (calls w + k) text = inr raw ->
     safe_embed text 0 w
     = (Ok (np_normalize raw), after w (S k) (firstn k [10; 20; 30])))
  /\ ((forall i, (i < 4)%nat -> provider (calls w + i) text = inl (e i)) ->
      safe_embed text 0 w = (Raised (e 3%nat), after w 4 [10; 20; 30])).
Proof.
  intros Hrate. split.
  - intros k Hk Hfail Hok.
    change 0 with (Z.of_nat 0).
    rewrite (retry_then_reply text raw e Hrate k 0 w).
    + f_equal. f_equal.
      destruct k as [|[|[|[|k]]]]; try reflexivity; lia.
    + lia.
    + exact Hfail.
    + exact Hok.
  - intros Hfail.
    change 0 with (Z.of_nat 0).
    rewrite (retry_exhausted text e Hrate 3 0 w).
    + reflexivity.
    + lia.
    + intros i Hi. apply Hfail. lia.
Qed.

(** C10: [safe_embed] terminates for every text, every retry counter,
    every state and every provider: with [fuel_for text retry_count]
    nested calls or more it returns a result, the same for every such
    fuel.  A retry raises the counter towards its cap of 3, and the
    oversized-input split calls itself on two strictly shorter texts;
    both make [fuel_for] smaller. *)
Theorem safe_embed_terminates text retry_count w :
  (exists r, forall fuel, (fuel_for text retry_count <= fuel)%nat ->
     safe_embed_fuel fuel text retry_count w = Some r)
  /\ (retry_count < 3 ->
      (fuel_for text (retry_count + 1) < fuel_for text retry_count)%nat)
  /\ (len text > 10000 ->
      let mid := Z.to_nat (len text / 2) in
      (length (firstn mid text) < length text)%nat
      /\ (length (skipn mid text) < length text)%nat
      /\ (fuel_for (firstn mid text) 0 < fuel_for text retry_count)%nat
      /\ (fuel_for (skipn mid text) 0 < fuel_for text retry_count)%nat).
Proof.
  split; [|split].
  - exists (safe_embed text retry_count w). intros fuel Hfuel.
    now apply safe_embed_fuel_enough.
  - apply fuel_for_retry.
  - intros Hlen mid. destruct (halves_shorter text Hlen) as [Hl Hr].
    fold mid in Hl, Hr. repeat split; try assumption.
    + now apply fuel_for_half.
    + now apply fuel_for_half.
Qed.

End EmbeddingClient.

(* ===================================================================== *)
(** * The index and the metadata list grow together *)
(* ===================================================================== *)

Section Lockstep.
Import Embedding.

Variable provider : nat -> str -> exn + list float.
Variable np_normalize : list float -> vector.
Variable index_refuses : list vector -> option exn.
Variable float32 : float -> float.

Abbreviation safe_embed := (safe_embed provider np_normalize).
Abbreviation embed_loop := (embed_loop provider np_normalize).
Abbreviation index_batch :=
  (index_batch provider np_normalize index_refuses float32).
Abbreviation run_batches :=
  (run_batches provider np_normalize index_refuses float32).
Abbreviation main := (main provider np_normalize index_refuses float32).

(** *** The embedding client leaves the two stores alone *)

Lemma safe_embed_fuel_stores fuel :
  forall text retry_count w r w',
    safe_embed_fuel provider np_normalize fuel text retry_count w = Some (r, w') ->
    index w' = index w /\ metadata w' = metadata w.
Proof.
  induction fuel as [|fuel IH]; intros text rc w r w' Hrun; [discriminate|].
  cbn [Embedding.safe_embed_fuel] in Hrun. unfold embed_text in Hrun.
  destruct (provider (calls w) text) as [e|raw].
  - destruct (is_rate_signal e).
    + destruct (rc <? 3).
      * cbv zeta in Hrun. unfold time_sleep in Hrun.
        destruct (10 * (rc + 1) <? 0).
        -- inversion Hrun; subst. split; reflexivity.
        -- apply IH in Hrun. exact Hrun.
      * inversion Hrun; subst. split; reflexivity.
    + destruct (len text >? 10000).
      * destruct (safe_embed_fuel _ _ fuel (firstn _ text) 0 (tick w))
          as [[[l|e1] w2]|] eqn:El; [| |discriminate].
        -- apply IH in El. destruct El as [E1 E2].
           destruct (safe_embed_fuel _ _ fuel (skipn _ text) 0 w2)
             as [[[r'|e2] w3]|] eqn:Er; [| |discriminate];
             apply IH in Er; destruct Er as [E3 E4];
             inversion Hrun; subst; cbn [index metadata tick] in *;
             split; congruence.
        -- apply IH in El. inversion Hrun; subst. exact El.
      * inversion Hrun; subst. split; reflexivity.
  - inversion Hrun; subst. split; reflexivity.
Qed.

Lemma safe_embed_stores text retry_count w r w' :
  safe_embed text retry_count w = (r, w') ->
  index w' = index w /\ metadata w' = metadata w.
Proof.
  intros Hrun.
  apply (safe_embed_fuel_stores (fuel_for text retry_count) text retry_count w r).
  rewrite safe_embed_fuel_enough by lia. now rewrite Hrun.
Qed.

(** The loop leaves the stores alone and, when it ends normally, has
    added the embedding of each text, in the order of the texts. *)
Lemma embed_loop_result texts :
  forall embs w r w',
    embed_loop texts embs w = (r, w') ->
    index w' = index w /\ metadata w' = metadata w
    /\ forall embs', r = Ok embs' ->
         exists new,
           embs' = embs ++ new
           /\ Forall2 (fun t v => exists wa wb, safe_embed t 0 wa = (Ok v, wb))
                      texts new.
Proof.
  induction texts as [|t texts IH]; intros embs w r w' Hrun;
    cbn [Embedding.embed_loop] in Hrun.
  - inversion Hrun; subst. repeat split; try reflexivity.
    intros embs' [= <-]. exists []. now rewrite app_nil_r.
  - destruct (safe_embed t 0 w) as [[emb|e] w1] eqn:Et.
    + apply safe_embed_stores in Et as Est. destruct Est as [E1 E2].
      apply IH in Hrun. destruct Hrun as (E3 & E4 & Hnew).
      repeat split; try congruence.
      intros embs' Hr. destruct (Hnew embs' Hr) as (new & -> & HF).
      exists (emb :: new). rewrite <- app_assoc. split; [reflexivity|].
      constructor; [eauto | assumption].
    + apply safe_embed_stores in Et. inversion Hrun; subst.
      repeat split; try apply Et. discriminate.
Qed.

(** *** The records of a batch *)

Lemma records_texts texts metas :
  length texts = length metas ->
  length (records texts metas) = length texts
  /\ map text (records texts metas) = texts
  /\ map entry_meta (records texts metas) = metas.
Proof.
  intros Hlen. unfold records. rewrite length_map, length_combine, !map_map.
  cbn [text entry_meta]. repeat split.
  - lia.
  - revert metas Hlen. induction texts as [|t texts IH]; intros [|m metas] Hlen;
      try discriminate; cbn; [reflexivity|]. f_equal. apply IH. now injection Hlen.
  - revert metas Hlen. induction texts as [|t texts IH]; intros [|m metas] Hlen;
      try discriminate; cbn; [reflexivity|]. f_equal. apply IH. now injection Hlen.
Qed.

(** What a batch that is committed appends. *)
Lemma index_batch_commit texts metas w w' :
  length texts = length metas ->
  index_batch texts metas w = (Ok tt, w') ->
  exists embs,
    index w' = index w ++ map (map float32) embs
    /\ metadata w' = metadata w ++ records texts metas
    /\ length embs = length texts
    /\ Forall2 (fun t v => exists wa wb, safe_embed t 0 wa = (Ok v, wb))
               texts embs.
Proof.
  intros Hlen Hrun. unfold Embedding.index_batch in Hrun.
  destruct (embed_loop texts [] w) as [[embs|e] w1] eqn:El; [|discriminate].
  apply embed_loop_result in El. destruct El as (E1 & E2 & Hnew).
  destruct (Hnew embs eq_refl) as (new & Hembs & HF). cbn in Hembs. subst new.
  destruct (index_refuses embs); [discriminate|].
  inversion Hrun; subst. exists embs. cbn [index metadata commit].
  rewrite E1, E2. repeat split; try reflexivity; [|assumption].
  symmetry. eapply Forall2_length. eassumption.
Qed.

Lemma index_batch_lockstep texts metas w r w' :
  length texts = length metas ->
  lockstep w ->
  index_batch texts metas w = (r, w') ->
  lockstep w'.
Proof.
  intros Hlen Hw Hrun. destruct r as [[]|e].
  - destruct (index_batch_commit _ _ _ _ Hlen Hrun) as (embs & E1 & E2 & E3 & _).
    unfold lockstep in *. rewrite E1, E2, !length_app, length_map.
    destruct (records_texts texts metas Hlen) as [-> _]. lia.
  - unfold Embedding.index_batch in Hrun.
    destruct (embed_loop texts [] w) as [[embs|e'] w1] eqn:El.
    + apply embed_loop_result in El. destruct El as (E1 & E2 & _).
      destruct (index_refuses embs); [|discriminate].
      inversion Hrun; subst. unfold lockstep in *. congruence.
    + apply embed_loop_result in El. destruct El as (E1 & E2 & _).
      inversion Hrun; subst. unfold lockstep in *. congruence.
Qed.

(** *** The two ingestion functions return as many texts as metas *)

Lemma slice_length {A B} (l : list A) (l' : list B) start stop :
  length l = length l' ->
  length (slice l start stop) = length (slice l' start stop).
Proof.
  intros Hlen. unfold slice, len. rewrite !length_firstn, !length_skipn, Hlen.
  reflexivity.
Qed.

Lemma append_chunks_lengths mk chunks batch :
  length (fst batch) = length (snd batch) ->
  length (fst (append_chunks mk chunks batch))
  = length (snd (append_chunks mk chunks batch)).
Proof.
  unfold append_chunks. generalize (enumerate chunks) as ics.
  intros ics. revert batch.
  induction ics as [|ic ics IH]; intros batch Hb; cbn [fold_left]; [assumption|].
  apply IH. cbn [fst snd]. rewrite !length_app. cbn. lia.
Qed.

Lemma ingest_markdown_files_lengths markdown_dir :
  length (fst (ingest_markdown_files markdown_dir))
  = length (snd (ingest_markdown_files markdown_dir)).
Proof.
  unfold ingest_markdown_files. destruct markdown_dir as [listing|]; [|reflexivity].
  generalize (filter (fun f => endswith (fst f) (lit ".md")) listing) as files.
  intros files.
  assert (H : forall batch : list str * list meta,
             length (fst batch) = length (snd batch) ->
             length (fst (fold_left
               (fun batch f => append_chunks (course_meta (fst f))
                                 (chunk_document (snd f)) batch) files batch))
             = length (snd (fold_left
               (fun batch f => append_chunks (course_meta (fst f))
                                 (chunk_document (snd f)) batch) files batch))).
  { induction files as [|f files IH]; intros batch Hb; cbn [fold_left];
      [assumption|]. apply IH. now apply append_chunks_lengths. }
  now apply H.
Qed.

Lemma ingest_discourse_json_lengths discourse_file :
  length (fst (ingest_discourse_json discourse_file))
  = length (snd (ingest_discourse_json discourse_file)).
Proof.
  unfold ingest_discourse_json. destruct discourse_file as [posts|]; [|reflexivity].
  generalize (fold_left (fun t p => topics_add p t) posts []) as topics.
  intros topics.
  set (step := fun (batch : list str * list meta)
                   (topic : Z * (str * list post)) =>
                 let '(tid, (title, ps)) := topic in
                 append_chunks (discourse_meta tid title)
                   (chunk_document (topic_text title (sorted_posts ps))) batch).
  assert (H : forall batch : list str * list meta,
             length (fst batch) = length (snd batch) ->
             length (fst (fold_left step topics batch))
             = length (snd (fold_left step topics batch))).
  { induction topics as [|[tid [title ps]] topics IH]; intros batch Hb;
      cbn [fold_left]; [assumption|].
    apply IH. unfold step. now apply append_chunks_lengths. }
  now apply H.
Qed.

Lemma corpus_lengths markdown_dir discourse_file :
  length (fst (corpus markdown_dir discourse_file))
  = length (snd (corpus markdown_dir discourse_file)).
Proof.
  unfold corpus. cbn [fst snd]. rewrite !length_app.
  now rewrite ingest_markdown_files_lengths, ingest_discourse_json_lengths.
Qed.

(** *** The batch loop *)

Lemma run_batches_lockstep all_texts all_meta offsets :
  length all_texts = length all_meta ->
  forall w, lockstep w ->
    lockstep (snd (run_batches offsets all_texts all_meta w)).
Proof.
  intros Hlen. induction offsets as [|i offsets IH]; intros w Hw;
    cbn [Embedding.run_batches]; [assumption|].
  destruct (index_batch _ _ w) as [[[]|e] w1] eqn:Eb.
  - apply IH. eapply index_batch_lockstep; [|exact Hw|exact Eb].
    now apply slice_length.
  - cbn [snd]. eapply index_batch_lockstep; [|exact Hw|exact Eb].
    now apply slice_length.
Qed.

Lemma main_corpus markdown_dir discourse_file w :
  main markdown_dir discourse_file w
  = match fst (corpus markdown_dir discourse_file) with
    | [] => (Ok tt, w)
    | _ => run_batches
             (range 0 (len (fst (corpus markdown_dir discourse_file))) BATCH_SIZE)
             (fst (corpus markdown_dir discourse_file))
             (snd (corpus markdown_dir discourse_file)) w
    end.
Proof.
  unfold Embedding.main, corpus.
  destruct (ingest_markdown_files markdown_dir) as [md_texts md_meta].
  destruct (ingest_discourse_json discourse_file) as [disc_texts disc_meta].
  reflexivity.
Qed.

(** C1: in every ingestion run, whatever the documents and whatever the
    provider, numpy and FAISS do, the index holds as many vectors as the
    metadata list holds records after each batch of the run and when the
    run ends, normally or with an exception; and every batch that
    [index_batch] commits appends the embeddings of its [n] texts to the
    index and exactly [n] records to the metadata list, the record at
    each position carrying the text and the meta of that position. *)
Theorem index_metadata_lockstep markdown_dir discourse_file w :
  lockstep w ->
  let all_texts := fst (corpus markdown_dir discourse_file) in
  let all_meta := snd (corpus markdown_dir discourse_file) in
  (forall j,
     lockstep (snd (run_batches
                      (firstn j (range 0 (len all_texts) BATCH_SIZE))
                      all_texts all_meta w)))
  /\ lockstep (snd (main markdown_dir discourse_file w))
  /\ (forall i w1 w2,
        let batch_texts := slice all_texts i (i + BATCH_SIZE) in
        let batch_meta := slice all_meta i (i + BATCH_SIZE) in
        index_batch batch_texts batch_meta w1 = (Ok tt, w2) ->
        exists embs,
          index w2 = index w1 ++ map (map float32) embs
          /\ metadata w2 = metadata w1 ++ records batch_texts batch_meta
          /\ length embs = length batch_texts
          /\ length (records batch_texts batch_meta) = length batch_texts
          /\ map text (records batch_texts batch_meta) = batch_texts
          /\ map entry_meta (records batch_texts batch_meta) = batch_meta
          /\ Forall2 (fun t v => exists wa wb, safe_embed t 0 wa = (Ok v, wb))
                     batch_texts embs).
Proof.
  intros Hw all_texts all_meta. subst all_texts all_meta.
  pose proof (corpus_lengths markdown_dir discourse_file) as Hlen.
  split; [|split].
  - intros j. now apply run_batches_lockstep.
  - rewrite main_corpus.
    destruct (fst (corpus markdown_dir discourse_file)) eqn:E; [assumption|].
    rewrite <- E in *. now apply run_batches_lockstep.
  - intros i w1 w2 batch_texts batch_meta Hrun.
    assert (Hb : length batch_texts = length batch_meta)
      by now apply slice_length.
    destruct (index_batch_commit _ _ _ _ Hb Hrun) as (embs & E1 & E2 & E3 & HF).
    destruct (records_texts _ _ Hb) as (R1 & R2 & R3).
    exists embs. repeat split; assumption.
Qed.

End Lockstep.

(* ===================================================================== *)
(** * The order of floats *)
(* ===================================================================== *)

Section FloatOrder.

Ltac order_cases :=
  repeat match goal with
  | H : context [Z.compare ?a ?b] |- _ => destruct (Z.compare_spec a b)
  | |- context [Z.compare ?a ?b] => destruct (Z.compare_spec a b)
  | H : context [Pos.compare_cont Eq ?a ?b] |- _ =>
      change (Pos.compare_cont Eq a b) with (Pos.compare a b) in H
  | |- context [Pos.compare_cont Eq ?a ?b] =>
      change (Pos.compare_cont Eq a b) with (Pos.compare a b)
  | H : context [Pos.compare ?a ?b] |- _ => destruct (Pos.compare_spec a b)
  | |- context [Pos.compare ?a ?b] => destruct (Pos.compare_spec a b)
  end.

Lemma SFltb_asym a b : SFltb a b = true -> SFltb b a = false.
Proof.
  unfold SFltb, SFcompare.
  destruct a as [[]|[]| |[] ma ea], b as [[]|[]| |[] mb eb];
    cbn; try congruence; order_cases; cbn; try congruence; try lia.
Qed.

Lemma SFltb_false_trans a b c :
  is_nan b = false ->
  SFltb a b = false -> SFltb b c = false -> SFltb a c = false.
Proof.
  unfold SFltb, SFcompare.
  destruct a as [[]|[]| |[] ma ea], b as [[]|[]| |[] mb eb],
           c as [[]|[]| |[] mc ec];
    cbn; try congruence; intros _;
    order_cases; cbn; try congruence; try lia.
Qed.

Lemma SFeqb_class a b k :
  SFeqb a k = true -> SFltb a b = true -> SFeqb b k = false.
Proof.
  unfold SFeqb, SFltb, SFcompare.
  destruct a as [[]|[]| |[] ma ea], b as [[]|[]| |[] mb eb],
           k as [[]|[]| |[] mk ek];
    cbn; try congruence;
    order_cases; cbn; try congruence; try lia.
Qed.

Lemma SFleb_not_nan a b : SFleb a b = true -> is_nan b = false.
Proof.
  unfold SFleb, SFcompare.
  destruct a as [[]|[]| |[] ma ea], b as [[]|[]| |[] mb eb];
    cbn; congruence.
Qed.

Lemma SFeqb_refl a : is_nan a = false -> SFeqb a a = true.
Proof.
  unfold SFeqb, SFcompare.
  destruct a as [[]|[]| |[] ma ea]; cbn; try congruence; intros _;
    rewrite Z.compare_refl; change (Pos.compare_cont Eq ma ma) with (Pos.compare ma ma);
    now rewrite Pos.compare_refl.
Qed.

Lemma SFltb_neither a b :
  is_nan a = false -> is_nan b = false ->
  SFltb a b = false -> SFltb b a = false -> SFeqb b a = true.
Proof.
  unfold SFeqb, SFltb, SFcompare.
  destruct a as [[]|[]| |[] ma ea], b as [[]|[]| |[] mb eb];
    cbn; try congruence; intros _ _;
    order_cases; cbn; try congruence; try lia.
Qed.

End FloatOrder.

(* ===================================================================== *)
(** * Properties of the retriever *)
(* ===================================================================== *)

Section Ranking.
Import App.

Lemma insert_desc_perm r l : Permutation (insert_desc r l) (r :: l).
Proof.
  induction l as [|q l IH]; cbn [insert_desc]; [reflexivity|].
  destruct (SFltb (similarity r) (similarity q)); [|reflexivity].
  rewrite IH. apply perm_swap.
Qed.

Lemma sort_desc_perm l : Permutation (sort_desc l) l.
Proof.
  induction l as [|r l IH]; cbn; [reflexivity|].
  rewrite insert_desc_perm. now constructor.
Qed.

Lemma insert_desc_sorted r l :
  is_nan (similarity r) = false ->
  Forall (fun q => is_nan (similarity q) = false) l ->
  StronglySorted not_below l ->
  StronglySorted not_below (insert_desc r l).
Proof.
  intros Hr Hl Hs. induction Hs as [|q l Hs IH Hq]; cbn [insert_desc].
  - repeat constructor.
  - inversion Hl as [|? ? Hqn Hln]; subst.
    destruct (SFltb (similarity r) (similarity q)) eqn:E.
    + constructor; [now apply IH|].
      apply (Permutation_Forall (Permutation_sym (insert_desc_perm r l))).
      constructor; [|assumption]. now apply SFltb_asym.
    + constructor; [now constructor|]. constructor; [exact E|].
      eapply Forall_impl; [|exact Hq]. intros x Hx. unfold not_below in *.
      now apply (SFltb_false_trans _ (similarity q)).
Qed.

Lemma sort_desc_sorted l :
  Forall (fun q => is_nan (similarity q) = false) l ->
  StronglySorted not_below (sort_desc l).
Proof.
  induction 1 as [|r l Hr Hl IH]; cbn; [constructor|].
  apply insert_desc_sorted; try assumption.
  now apply (Permutation_Forall (Permutation_sym (sort_desc_perm l))).
Qed.

Lemma insert_desc_stable k r l :
  with_similarity k (insert_desc r l) = with_similarity k (r :: l).
Proof.
  unfold with_similarity.
  induction l as [|q l IH]; cbn [insert_desc]; [reflexivity|].
  destruct (SFltb (similarity r) (similarity q)) eqn:E; [|reflexivity].
  cbn [filter] in *. rewrite IH.
  destruct (SFeqb (similarity r) k) eqn:Er; [|reflexivity].
  now rewrite (SFeqb_class _ _ _ Er E).
Qed.

Lemma sort_desc_stable k l :
  with_similarity k (sort_desc l) = with_similarity k l.
Proof.
  induction l as [|r l IH]; cbn [sort_desc fold_right]; [reflexivity|].
  fold (sort_desc l). rewrite insert_desc_stable.
  unfold with_similarity in *. cbn [filter]. now rewrite IH.
Qed.

Lemma with_similarity_cons k r l :
  with_similarity k (r :: l)
  = if SFeqb (similarity r) k then r :: with_similarity k l
    else with_similarity k l.
Proof. reflexivity. Qed.

Lemma with_similarity_In k r l : In r (with_similarity k l) -> In r l.
Proof. unfold with_similarity. rewrite filter_In. tauto. Qed.

(** A list has one rearrangement only that is in decreasing order of
    similarity and keeps equal similarities in their order. *)
Lemma ranking_unique a :
  forall b,
    Forall (fun r => is_nan (similarity r) = false) a ->
    Permutation a b ->
    StronglySorted not_below a ->
    StronglySorted not_below b ->
    (forall k, with_similarity k a = with_similarity k b) ->
    a = b.
Proof.
  induction a as [|x a IH]; intros b Hnan Hperm Ha Hb Hstable.
  - now apply Permutation_nil in Hperm.
  - destruct b as [|y b]; [now apply Permutation_sym, Permutation_nil in Hperm|].
    inversion Hnan as [|? ? Hx Hnan']; subst.
    inversion Ha as [|? ? Ha' Hxa]; subst.
    inversion Hb as [|? ? Hb' Hyb]; subst.
    assert (Hxy : x = y).
    { pose proof (Hstable (similarity x)) as Hk.
      rewrite !with_similarity_cons, SFeqb_refl in Hk by assumption.
      destruct (SFeqb (similarity y) (similarity x)) eqn:Ey; [congruence|].
      exfalso.
      assert (Hxb : In x b).
      { apply (with_similarity_In (similarity x)). rewrite <- Hk. now left. }
      assert (Hya : In y (x :: a))
        by (apply (Permutation_in _ (Permutation_sym Hperm)); now left).
      destruct Hya as [->|Hya].
      - rewrite SFeqb_refl in Ey by assumption. discriminate.
      - rewrite Forall_forall in Hxa, Hyb, Hnan'.
        pose proof (Hxa _ Hya) as H1. pose proof (Hyb _ Hxb) as H2.
        unfold not_below in H1, H2.
        rewrite (SFltb_neither _ _ Hx (Hnan' _ Hya) H1 H2) in Ey. discriminate. }
    subst y. f_equal. apply IH; try assumption.
    + now apply Permutation_cons_inv in Hperm.
    + intros k. specialize (Hstable k). rewrite !with_similarity_cons in Hstable.
      destruct (SFeqb (similarity x) k); congruence.
Qed.

Lemma firstn_In {A} (x : A) n l : In x (firstn n l) -> In x l.
Proof.
  intros H. rewrite <- (firstn_skipn n l). apply in_or_app. now left.
Qed.

Lemma slice_firstn {A} (l : list A) k :
  0 <= k -> slice l 0 k = firstn (Z.to_nat k) l.
Proof.
  intros Hk. unfold slice, clamp, len. cbn [Z.ltb Z.compare].
  destruct (Z.ltb_spec k 0) as [|_]; [lia|].
  rewrite (Z.min_l 0) by lia. cbn [Z.to_nat skipn]. rewrite Z.sub_0_r.
  destruct (Z_le_gt_dec k (Z.of_nat (length l))).
  - now rewrite Z.min_l by lia.
  - rewrite Z.min_r by lia. rewrite !firstn_all2; [reflexivity|lia|lia].
Qed.

End Ranking.

Section Retriever.
Import App.

Variable metadata : list meta.
Variable index_search : vector -> Z -> exn + (list float * list Z).

Abbreviation visit := (visit metadata).
Abbreviation visit_unfiltered := (visit_unfiltered metadata).
Abbreviation search_similar := (search_similar metadata index_search).
Abbreviation search_similar_unfiltered :=
  (search_similar_unfiltered metadata index_search).
Abbreviation kept := (kept metadata).
Abbreviation eligible := (eligible metadata).

Lemma nth_error_range idx :
  0 <= idx ->
  (idx <? len metadata) = true <-> nth_error metadata (Z.to_nat idx) <> None.
Proof.
  intros Hidx. rewrite nth_error_Some, Z.ltb_lt. unfold len. lia.
Qed.

Lemma visit_kept threshold results cand :
  visit threshold results cand = results ++ kept threshold cand.
Proof.
  destruct cand as [dist idx]. unfold App.visit, App.kept. cbn [fst snd].
  destruct (Z.ltb_spec idx 0) as [Hneg|Hpos].
  - destruct (Z.leb_spec 0 idx); [lia|]. cbn. now rewrite app_nil_r.
  - destruct (Z.leb_spec 0 idx); [|lia]. cbn [andb].
    destruct (nth_error metadata (Z.to_nat idx)) as [m|] eqn:En.
    + assert (Hr : (idx <? len metadata) = true)
        by (apply nth_error_range; [lia | congruence]).
      rewrite Hr. cbn [andb].
      destruct (ge_int dist threshold); [reflexivity | now rewrite app_nil_r].
    + destruct ((idx <? len metadata) && ge_int dist threshold);
        now rewrite app_nil_r.
Qed.

Lemma fold_visit threshold cands :
  forall results,
    fold_left (visit threshold) cands results
    = results ++ eligible threshold cands.
Proof.
  induction cands as [|cand cands IH]; intros results; cbn [fold_left].
  - cbn. now rewrite app_nil_r.
  - rewrite IH, visit_kept. cbn [App.eligible flat_map]. now rewrite <- app_assoc.
Qed.

Lemma eligible_in threshold cands r :
  In r (eligible threshold cands) ->
  exists dist idx m,
    In (dist, idx) cands
    /\ 0 <= idx < len metadata
    /\ nth_error metadata (Z.to_nat idx) = Some m
    /\ ge_int dist threshold = true
    /\ r = result_of m dist.
Proof.
  unfold App.eligible. rewrite in_flat_map. intros [[dist idx] [Hin Hr]].
  unfold App.kept in Hr. cbn [fst snd] in Hr.
  destruct (Z.leb_spec 0 idx); [|contradiction].
  destruct (Z.ltb_spec idx (len metadata)); [|contradiction].
  destruct (ge_int dist threshold) eqn:Eg; [|contradiction]. cbn [andb] in Hr.
  destruct (nth_error metadata (Z.to_nat idx)) as [m|] eqn:En; [|contradiction].
  destruct Hr as [<-|[]]. exists dist, idx, m. repeat split; try assumption; lia.
Qed.

Lemma eligible_threshold threshold cands :
  Forall (fun r => ge_int (similarity r) threshold = true)
         (eligible threshold cands).
Proof.
  apply Forall_forall. intros r Hr.
  destruct (eligible_in _ _ _ Hr) as (dist & idx & m & _ & _ & _ & Hg & ->).
  exact Hg.
Qed.

(** C7: when the search of the index for [2 * top_k] candidates returns
    them, [search_similar] returns the first [top_k] of the kept
    candidates ranked by decreasing similarity, equal similarities in
    search order; there is one such ranking only.  A candidate is kept
    when its position is one of the metadata list and its similarity is
    at least the threshold.  So no more than [top_k] results are
    returned, each has a similarity of at least the threshold and comes
    from a candidate in range with the record at that position. *)
Theorem search_similar_ranked query_embedding top_k distances indices :
  0 <= top_k ->
  index_search query_embedding (top_k * 2) = inr (distances, indices) ->
  let accepted := eligible SIMILARITY_THRESHOLD (combine distances indices) in
  exists results ranked,
    search_similar query_embedding top_k = Ok results
    /\ results = firstn (Z.to_nat top_k) ranked
    /\ Permutation ranked accepted
    /\ StronglySorted not_below ranked
    /\ (forall k, with_similarity k ranked = with_similarity k accepted)
    /\ (forall ranked',
          Permutation ranked' accepted ->
          StronglySorted not_below ranked' ->
          (forall k, with_similarity k ranked' = with_similarity k accepted) ->
          ranked' = ranked)
    /\ len results <= top_k
    /\ Forall (fun r => ge_int (similarity r) SIMILARITY_THRESHOLD = true) results
    /\ (forall r, In r results ->
          exists dist idx m,
            In (dist, idx) (combine distances indices)
            /\ 0 <= idx < len metadata
            /\ nth_error metadata (Z.to_nat idx) = Some m
            /\ r = result_of m dist).
Proof.
  intros Hk Hsearch accepted.
  exists (firstn (Z.to_nat top_k) (sort_desc accepted)), (sort_desc accepted).
  assert (Hthr : Forall (fun r => ge_int (similarity r) SIMILARITY_THRESHOLD = true)
                        (sort_desc accepted)).
  { apply (Permutation_Forall (Permutation_sym (sort_desc_perm accepted))).
    apply eligible_threshold. }
  assert (Hnan : Forall (fun r => is_nan (similarity r) = false) accepted).
  { eapply Forall_impl; [|apply eligible_threshold].
    intros r Hr. eapply SFleb_not_nan. exact Hr. }
  repeat split.
  - unfold App.search_similar. rewrite Hsearch, fold_visit. cbn [app].
    fold accepted. now rewrite slice_firstn.
  - apply sort_desc_perm.
  - now apply sort_desc_sorted.
  - intros k. apply sort_desc_stable.
  - intros ranked' Hperm Hsorted Hstable.
    apply ranking_unique; try assumption.
    + now apply (Permutation_Forall (Permutation_sym Hperm)).
    + rewrite Hperm. symmetry. apply sort_desc_perm.
    + now apply sort_desc_sorted.
    + intros k. rewrite Hstable. symmetry. apply sort_desc_stable.
  - unfold len. rewrite length_firstn. lia.
  - apply Forall_forall. intros r Hr. apply firstn_In in Hr.
    rewrite Forall_forall in Hthr. now apply Hthr.
  - intros r Hr. apply firstn_In in Hr.
    apply (Permutation_in _ (sort_desc_perm accepted)) in Hr.
    destruct (eligible_in _ _ _ Hr) as (dist & idx & m & H1 & H2 & H3 & _ & H5).
    exists dist, idx, m. repeat split; tauto.
Qed.

(** The threshold test amounts to dropping, before an unfiltered search,
    the candidates whose similarity is below the threshold. *)
Lemma fold_visit_unfiltered threshold cands :
  forall results,
    fold_left (visit threshold) cands results
    = fold_left visit_unfiltered
        (filter (fun c => ge_int (fst c) threshold) cands) results.
Proof.
  induction cands as [|[dist idx] cands IH]; intros results;
    cbn [fold_left filter fst]; [reflexivity|].
  destruct (ge_int dist threshold) eqn:Eg; cbn [fold_left].
  - rewrite IH. f_equal. unfold App.visit, App.visit_unfiltered.
    destruct (idx <? 0); [reflexivity|].
    destruct (nth_error metadata (Z.to_nat idx)); [|reflexivity].
    now rewrite Eg.
  - rewrite <- IH. f_equal. unfold App.visit.
    destruct (idx <? 0); [reflexivity|].
    destruct (nth_error metadata (Z.to_nat idx)); [|reflexivity].
    now rewrite Eg.
Qed.

(** C8 (amended): a threshold of 0 is not the absence of a threshold.
    With [SIMILARITY_THRESHOLD = 0] the search is the unfiltered search
    run on the candidates whose similarity is at least 0 (a negative or
    NaN similarity is dropped); so the two searches return the same
    result whenever every candidate has a similarity of at least 0. *)
Theorem threshold_zero_filter query_embedding top_k distances indices :
  index_search query_embedding (top_k * 2) = inr (distances, indices) ->
  let cands := combine distances indices in
  search_similar query_embedding top_k
  = Ok (slice (sort_desc
                 (fold_left visit_unfiltered
                    (filter (fun c => ge_int (fst c) 0) cands) []))
              0 top_k)
  /\ (Forall (fun c => ge_int (fst c) 0 = true) cands ->
      search_similar query_embedding top_k
      = search_similar_unfiltered query_embedding top_k).
Proof.
  intros Hsearch cands.
  assert (H : search_similar query_embedding top_k
    = Ok (slice (sort_desc
                 (fold_left visit_unfiltered
                    (filter (fun c => ge_int (fst c) 0) cands) []))
              0 top_k)).
  { unfold App.search_similar. rewrite Hsearch. fold cands.
    now rewrite fold_visit_unfiltered. }
  split; [exact H|].
  intros Hall. rewrite H. unfold App.search_similar_unfiltered.
  rewrite Hsearch. fold cands.
  replace (filter (fun c => ge_int (fst c) 0) cands) with cands; [reflexivity|].
  clear H. induction Hall as [|c l Hc Hl IH]; cbn [filter]; [reflexivity|].
  now rewrite Hc, <- IH.
Qed.

End Retriever.

(* ===================================================================== *)
(** * Properties of answer assembly *)
(* ===================================================================== *)

Section Assembler.
Import App.

Variable generate_content : nat -> str -> exn + str.

Abbreviation generate_answer := (generate_answer generate_content).

Lemma dict_set_new {V} (k : Z) (v : V) d :
  Forall (fun kv => fst kv < k) d -> dict_set k v d = d ++ [(k, v)].
Proof.
  induction 1 as [|[k' v'] d Hk Hd IH]; cbn [dict_set app]; [reflexivity|].
  cbn [fst] in Hk. destruct (Z.eqb_spec k' k); [lia|]. now rewrite IH.
Qed.

Lemma slice_150 (s : str) : slice s 0 150 = firstn 150 s.
Proof. now rewrite slice_firstn. Qed.

(** The keys [i+1] grow along the loop, so no entry of [sources_used] is
    ever overwritten: the dict ends with one entry per chunk, in order. *)
Lemma sources_used_entries chunks :
  forall (start : nat) acc,
    Forall (fun kv => fst kv < Z.of_nat start + 1) (snd acc) ->
    snd (fold_left add_source
           (combine (map Z.of_nat (seq start (length chunks))) chunks) acc)
    = snd acc
      ++ map (fun ic => (fst ic + 1, (source (snd ic), firstn 150 (content (snd ic)))))
             (combine (map Z.of_nat (seq start (length chunks))) chunks).
Proof.
  induction chunks as [|c chunks IH]; intros start [parts d] Hd;
    cbn [length seq map combine fold_left snd].
  - now rewrite app_nil_r.
  - cbn [snd] in Hd. unfold add_source at 2. cbn [fst snd].
    rewrite IH.
    + cbn [snd fst]. rewrite dict_set_new by assumption.
      rewrite slice_150, <- app_assoc. reflexivity.
    + cbn [snd]. rewrite dict_set_new by assumption.
      apply Forall_app. split.
      * eapply Forall_impl; [|exact Hd]. cbn. intros kv Hkv. lia.
      * repeat constructor. cbn. lia.
Qed.

Lemma map_snd_combine {A B C} (g : B -> C) (ks : list A) (l : list B) :
  length ks = length l ->
  map (fun kx => g (snd kx)) (combine ks l) = map g l.
Proof.
  revert ks. induction l as [|x l IH]; intros [|k ks] Hlen;
    try discriminate; cbn [combine map snd]; [reflexivity|].
  f_equal. apply IH. now injection Hlen.
Qed.

Lemma links_of_sources chunks :
  map (fun item : Z * (str * str) =>
         {| url := fst (snd item); link_text := snd (snd item) |})
      (snd (fold_left add_source (enumerate chunks) ([], [])))
  = map link_of chunks.
Proof.
  unfold enumerate. rewrite (sources_used_entries chunks 0 ([], [])) by constructor.
  cbn [snd app]. rewrite map_map.
  transitivity (map (fun ic : Z * result => link_of (snd ic))
                    (combine (map Z.of_nat (seq 0 (length chunks))) chunks)).
  - apply map_ext. intros [i c]. reflexivity.
  - apply map_snd_combine. now rewrite length_map, length_seq.
Qed.

(** C9: without chunks, [generate_answer] returns the fixed answer and no
    link, and sends nothing to the generative model; with chunks, it sends
    one prompt, and when the model replies the links are one per chunk, in
    the order of the chunks, each the chunk's source with the first 150
    characters of its text. *)
Theorem generate_answer_links question sent :
  generate_answer question [] sent
  = (Ok {| answer := no_information; links := [] |}, sent)
  /\ forall chunk chunks,
       let context_chunks := chunk :: chunks in
       let prompt := prompt_of question context_chunks in
       generate_answer question context_chunks sent
       = (match generate_content (length sent) prompt with
          | inr answer_text =>
              Ok {| answer := answer_text; links := map link_of context_chunks |}
          | inl e =>
              Raised (HTTPException 500 (lit "Generation error: " ++ str_of_exn e))
          end, sent ++ [prompt]).
Proof.
  split; [reflexivity|].
  intros chunk chunks context_chunks prompt.
  unfold App.generate_answer. fold context_chunks.
  pose proof (links_of_sources context_chunks) as Hlinks.
  unfold prompt, prompt_of.
  destruct (fold_left add_source (enumerate context_chunks) ([], []))
    as [context_parts sources_used].
  cbn [fst snd] in *. unfold context_chunks at 1.
  destruct (generate_content (length sent) _); [reflexivity|].
  now rewrite Hlinks.
Qed.

End Assembler.

(* ===================================================================== *)
(** * Runs on concrete inputs *)
(* ===================================================================== *)

Section Runs.
Import Embedding Scenario.

(** ** Ingestion *)

Lemma index_metadata_lockstep_witness :
  lockstep (snd (main provider_steady np_normalize32 faiss_refuses to_f32
                      (Some course_files) (Some forum_posts) initial_world)).
Proof.
  exact (proj1 (proj2
    (index_metadata_lockstep provider_steady np_normalize32 faiss_refuses to_f32
       (Some course_files) (Some forum_posts) initial_world eq_refl))).
Defined.

(** The run of the witness indexes two chunks. *)
Example ingestion_of_two_chunks :
  let w := snd (main provider_steady np_normalize32 faiss_refuses to_f32
                     (Some course_files) (Some forum_posts) initial_world) in
  length (index w) = 2%nat /\ length (metadata w) = 2%nat.
Proof. vm_compute. split; reflexivity. Qed.

(** [index_batch] relies on its caller for two lists of the same length:
    [zip] stops at the end of the shorter one.  [main] calls it on slices
    of [all_texts] and [all_meta], which have the same length
    ([corpus_lengths], [slice_length]). *)
Example index_batch_shorter_metas :
  let w := snd (index_batch provider_steady np_normalize32 faiss_refuses to_f32
                  [lit "first chunk"; lit "second chunk"]
                  [course_meta (lit "week1.md") 0 1] initial_world) in
  length (index w) = 2%nat /\ length (metadata w) = 1%nat.
Proof. vm_compute. split; reflexivity. Qed.

(** ** Retries *)

Lemma safe_embed_retry_cap_witness :
  safe_embed provider_three_failures np_normalize32 (lit "What is RAG?") 0
             initial_world
  = (Ok (np_normalize32 unit_0), after initial_world 4 [10; 20; 30])
  /\ safe_embed provider_exhausted np_normalize32 (lit "What is RAG?") 0
                initial_world
     = (Raised rate_limited, after initial_world 4 [10; 20; 30]).
Proof.
  split.
  - apply (proj1 (safe_embed_retry_cap provider_three_failures np_normalize32
                    (lit "What is RAG?") initial_world (fun _ => rate_limited)
                    unit_0 (fun _ => eq_refl)) 3%nat).
    + lia.
    + intros [|[|[|i]]] Hi; try reflexivity. lia.
    + reflexivity.
  - apply (proj2 (safe_embed_retry_cap provider_exhausted np_normalize32
                    (lit "What is RAG?") initial_world (fun _ => rate_limited)
                    unit_0 (fun _ => eq_refl))).
    intros i _. reflexivity.
Defined.

(** C2, counterexample: the provider signals the rate limit on the first
    three attempts and replies on the fourth; [safe_embed] does not fail,
    it returns that reply after waits of 10, 20 and 30 seconds. *)
Lemma three_failures_then_reply :
  provider_three_failures 0 (lit "What is RAG?") = inl rate_limited
  /\ provider_three_failures 1 (lit "What is RAG?") = inl rate_limited
  /\ provider_three_failures 2 (lit "What is RAG?") = inl rate_limited
  /\ is_rate_signal rate_limited = true
  /\ provider_three_failures 3 (lit "What is RAG?") = inr unit_0
  /\ safe_embed provider_three_failures np_normalize32 (lit "What is RAG?") 0
                initial_world
     = (Ok (np_normalize32 unit_0),
        {| calls := 4; slept := [10; 20; 30]; index := []; metadata := [] |}).
Proof. vm_compute. repeat split; reflexivity. Qed.

(** ** The oversized-input fallback *)

(** The two halves of the 12,000 characters embed to two unit vectors. *)
Example halves_embed_to_unit_vectors :
  sq_norm (np_normalize32 unit_0) = one
  /\ sq_norm (np_normalize32 unit_1) = one.
Proof. vm_compute. split; reflexivity. Qed.

(** C3 says that the fallback returns the average of the two half
    embeddings, normalized again.  On a text of 12,000 characters that the
    provider refuses for its size, with a failure that is not a rate-limit
    signal, [safe_embed] returns the plain average of the embeddings of
    the two halves, (1/2, 1/2, 0, ...), and normalizing that vector gives
    another one. *)
Lemma oversized_average_not_renormalized :
  len text12000 = 12000
  /\ provider_size_limit 0 text12000 = inl too_large
  /\ is_rate_signal too_large = false
  /\ exists v w,
       safe_embed provider_size_limit np_normalize32 text12000 0 initial_world
       = (Ok v, w)
       /\ np_average (np_normalize32 unit_0) (np_normalize32 unit_1) = Ok v
       /\ v = half :: half :: repeat zero 766
       /\ np_normalize32 v <> v.
Proof.
  split; [reflexivity|]. split; [reflexivity|]. split; [reflexivity|].
  exists (half :: half :: repeat zero 766),
         {| calls := 3; slept := []; index := []; metadata := [] |}.
  split; [vm_compute; reflexivity|]. split; [vm_compute; reflexivity|].
  split; [reflexivity|].
  intros H. apply (f_equal (fun l => hd zero l)) in H. vm_compute in H.
  discriminate H.
Qed.

(** C4 says that every vector [safe_embed] returns has L2 norm 1, on the
    fallback path too.  On the same run the vector returned has a squared
    norm of exactly 1/2, so an L2 norm of about 0.707. *)
Lemma oversized_result_not_unit :
  exists v w,
    safe_embed provider_size_limit np_normalize32 text12000 0 initial_world
    = (Ok v, w)
    /\ sq_norm v = half
    /\ SFltb (sq_norm v) one = true.
Proof.
  exists (half :: half :: repeat zero 766),
         {| calls := 3; slept := []; index := []; metadata := [] |}.
  split; [vm_compute; reflexivity|]. split; vm_compute; reflexivity.
Qed.

(** ** Retrieval *)

Lemma search_similar_ranked_witness :
  exists results,
    App.search_similar loaded_metadata search_ties unit_0 2 = Ok results
    /\ len results <= 2
    /\ Forall (fun r => App.ge_int (App.similarity r) App.SIMILARITY_THRESHOLD = true)
              results.
Proof.
  destruct (search_similar_ranked loaded_metadata search_ties unit_0 2
              (fst (padded 4 [(f64 3 (-2), 1); (half, 0); (half, 2)]))
              (snd (padded 4 [(f64 3 (-2), 1); (half, 0); (half, 2)]))
              ltac:(lia) eq_refl)
    as (results & ranked & H1 & _ & _ & _ & _ & _ & H6 & H7 & _).
  exists results. repeat split; assumption.
Defined.

(** Of the two hits with similarity 1/2, the one found first is kept. *)
Example search_ties_result :
  App.search_similar loaded_metadata search_ties unit_0 2
  = Ok [App.result_of record_1 (f64 3 (-2)); App.result_of record_0 half].
Proof. vm_compute. reflexivity. Qed.

Lemma threshold_zero_filter_witness :
  App.search_similar loaded_metadata
    (fun _ _ => inr ([f64 3 (-2); half], [1; 0])) unit_0 App.TOP_K_RESULTS
  = App.search_similar_unfiltered loaded_metadata
    (fun _ _ => inr ([f64 3 (-2); half], [1; 0])) unit_0 App.TOP_K_RESULTS.
Proof.
  apply (proj2 (threshold_zero_filter loaded_metadata
                  (fun _ _ => inr ([f64 3 (-2); half], [1; 0]))
                  unit_0 App.TOP_K_RESULTS [f64 3 (-2); half] [1; 0] eq_refl)).
  repeat constructor.
Defined.

(** C8, counterexample: a hit in range with the negative similarity
    -1/2 is returned by the search without threshold and dropped by the
    search with the threshold 0. *)
Lemma negative_similarity_dropped :
  App.search_similar loaded_metadata search_negative unit_0 App.TOP_K_RESULTS
  = Ok [App.result_of record_0 half]
  /\ App.search_similar_unfiltered loaded_metadata search_negative unit_0
       App.TOP_K_RESULTS
     = Ok [App.result_of record_0 half; App.result_of record_1 (SFopp half)].
Proof. vm_compute. split; reflexivity. Qed.

(** ** Answer assembly *)

(** Two chunks give two links, in order, whatever the model answers. *)
Example two_links :
  fst (App.generate_answer (fun _ _ => inr (lit "See Source 1."))
         (lit "When is the deadline?")
         [App.result_of record_1 (f64 3 (-2)); App.result_of record_0 half] [])
  = Ok {| App.answer := lit "See Source 1.";
          App.links :=
            [ {| App.url := lit "https://discourse.onlinedegree.iitm.ac.in/t/42";
                 App.link_text := lit "Topic: Project deadline" |};
              {| App.url := lit "Course: week1";
                 App.link_text := lit "Chunking splits a document into word windows." |} ] |}.
Proof. vm_compute. reflexivity. Qed.

End Runs.

(* ===================================================================== *)
(** * More on the chunker: what the chunks contain *)
(* ===================================================================== *)

Section ChunkContents.
Import Embedding Contents.

Lemma split_from_words s :
  forall cur,
    Forall (fun c => isspace c = false) cur ->
    Forall is_word (split_from cur s).
Proof.
  induction s as [|c s IH]; intros cur Hcur; cbn [split_from].
  - destruct cur as [|c0 cur]; constructor; [|constructor].
    split.
    + intros H. apply (f_equal (@length _)) in H.
      rewrite length_rev in H. discriminate.
    + apply Forall_rev. assumption.
  - destruct (isspace c) eqn:Ec.
    + destruct cur as [|c0 cur]; [apply IH; constructor|].
      constructor; [|apply IH; constructor].
      split.
      * intros H. apply (f_equal (@length _)) in H.
        rewrite length_rev in H. discriminate.
      * apply Forall_rev. assumption.
    + apply IH. constructor; assumption.
Qed.

Lemma split_words text : Forall is_word (split text).
Proof. apply split_from_words. constructor. Qed.

Lemma split_from_run w :
  forall cur s,
    Forall (fun c => isspace c = false) w ->
    split_from cur (w ++ s) = split_from (rev w ++ cur) s.
Proof.
  induction w as [|c w IH]; intros cur s Hw; cbn [app rev]; [reflexivity|].
  inversion Hw as [|? ? Hc Hw']; subst.
  cbn [split_from]. rewrite Hc, IH by assumption.
  now rewrite <- app_assoc.
Qed.

(** Joining words with single spaces and splitting again gives the words
    back. *)
Lemma split_join words :
  Forall is_word words -> split (join (lit " ") words) = words.
Proof.
  unfold split. induction 1 as [|w words [Hne Hw] Hwords IH]; [reflexivity|].
  destruct words as [|w' words].
  - cbn [join]. rewrite <- (app_nil_r w) at 1.
    rewrite split_from_run, app_nil_r by assumption. cbn [split_from].
    destruct (rev w) eqn:Er.
    + apply (f_equal (@length _)) in Er. rewrite length_rev in Er.
      destruct w; [congruence | discriminate].
    + now rewrite <- Er, rev_involutive.
  - change (join (lit " ") (w :: w' :: words))
      with (w ++ lit " " ++ join (lit " ") (w' :: words)).
    rewrite split_from_run, app_nil_r by assumption.
    change (lit " " ++ join (lit " ") (w' :: words))
      with (32%N :: join (lit " ") (w' :: words)).
    cbn [split_from]. change (isspace 32%N) with true. cbv iota.
    destruct (rev w) eqn:Er.
    + apply (f_equal (@length _)) in Er. rewrite length_rev in Er.
      destruct w; [congruence | discriminate].
    + rewrite <- Er, rev_involutive, IH. reflexivity.
Qed.

Lemma Forall_firstn {A} (P : A -> Prop) n (l : list A) :
  Forall P l -> Forall P (firstn n l).
Proof.
  intros H. rewrite <- (firstn_skipn n l) in H. now apply Forall_app in H.
Qed.

Lemma Forall_skipn {A} (P : A -> Prop) n (l : list A) :
  Forall P l -> Forall P (skipn n l).
Proof.
  intros H. rewrite <- (firstn_skipn n l) in H. now apply Forall_app in H.
Qed.

Lemma split_word_window text max_words start :
  split (word_window (split text) max_words start)
  = window_words (split text) max_words start.
Proof.
  unfold word_window, window_words. apply split_join.
  apply Forall_firstn, Forall_skipn, split_words.
Qed.

(** X1: splitting a text into words, joining them with single spaces and
    splitting again gives the same words; so every chunk, split again,
    is exactly its window of words, it has at least one word and at most
    [max_words]. *)
Theorem chunks_split_to_windows text max_words overlap :
  0 <= overlap < max_words ->
  let words := split text in
  let step := max_words - overlap in
  exists chunks,
    (forall fuel, (length words < fuel)%nat ->
       chunk_by_words fuel text max_words overlap = Some chunks)
    /\ split (join (lit " ") words) = words
    /\ map split chunks
       = map (fun j => window_words words max_words (Z.of_nat j * step))
             (seq 0 (length chunks))
    /\ Forall (fun chunk =>
                 (1 <= length (split chunk) <= Z.to_nat max_words)%nat) chunks.
Proof.
  intros Hpar words step.
  set (count := chunk_count (len words) step).
  exists (map (fun j => word_window words max_words (Z.of_nat j * step))
              (seq 0 count)).
  assert (Hstep : 0 < step) by (unfold step; lia).
  split; [|split; [|split]].
  - intros fuel Hfuel. unfold step in *.
    rewrite chunk_by_words_windows by assumption.
    fold words. rewrite windows_word_windows by lia. reflexivity.
  - apply split_join, split_words.
  - rewrite length_map, length_seq, map_map. apply map_ext. intros j.
    apply split_word_window.
  - apply Forall_forall. intros chunk Hin. apply in_map_iff in Hin.
    destruct Hin as (j & <- & Hj). apply in_seq in Hj.
    unfold words. rewrite split_word_window. fold words.
    unfold window_words. rewrite length_firstn, length_skipn.
    assert (Hbelow : Z.of_nat j * step < len words).
    { apply chunk_count_below; [unfold len; lia | assumption | ].
      fold count. lia. }
    unfold len in Hbelow. split; [|lia].
    assert (Z.to_nat (Z.of_nat j * step) < length words)%nat by nia.
    lia.
Qed.


Lemma window_words_head words max_words step start :
  0 <= step <= max_words ->
  firstn (Z.to_nat step) (window_words words max_words start)
  = firstn (Z.to_nat step) (skipn (Z.to_nat start) words).
Proof.
  intros Hs. unfold window_words. rewrite firstn_firstn.
  f_equal. lia.
Qed.

Lemma concat_heads {A} (l : list A) (step : nat) :
  (0 < step)%nat ->
  forall count (rest : list A),
    (length rest <= count * step)%nat ->
    concat (map (fun j => firstn step (skipn (j * step) rest)) (seq 0 count))
    = rest.
Proof.
  intros Hstep. induction count as [|count IH]; intros rest Hlen.
  - cbn in *. destruct rest; [reflexivity | cbn in Hlen; lia].
  - cbn [seq map concat]. rewrite <- seq_shift, map_map.
    change (skipn (0 * step) rest) with rest.
    transitivity (firstn step rest ++ skipn step rest);
      [|apply firstn_skipn].
    f_equal.
    etransitivity; [|apply (IH (skipn step rest)); rewrite length_skipn; lia].
    f_equal. apply map_ext. intros j.
    rewrite skipn_skipn. do 2 f_equal. lia.
Qed.

(** X2: the chunks cover the text word for word: keeping of every chunk
    its first [max_words - overlap] words, the ones that come before the
    start of the next chunk, and putting them end to end gives the words
    of the text, each once and in order. *)
Theorem chunks_cover_the_words text max_words overlap :
  0 <= overlap < max_words ->
  let words := split text in
  let step := max_words - overlap in
  exists chunks,
    (forall fuel, (length words < fuel)%nat ->
       chunk_by_words fuel text max_words overlap = Some chunks)
    /\ concat (map (fun chunk => firstn (Z.to_nat step) (split chunk)) chunks)
       = words.
Proof.
  intros Hpar words step.
  set (count := chunk_count (len words) step).
  exists (map (fun j => word_window words max_words (Z.of_nat j * step))
              (seq 0 count)).
  assert (Hstep : 0 < step) by (unfold step; lia).
  split.
  - intros fuel Hfuel. unfold step in *.
    rewrite chunk_by_words_windows by assumption.
    fold words. rewrite windows_word_windows by lia. reflexivity.
  - rewrite map_map.
    etransitivity;
      [|apply (concat_heads words (Z.to_nat step) ltac:(lia) count words)].
    + f_equal. apply map_ext. intros j. unfold words.
      rewrite split_word_window. fold words.
      rewrite window_words_head by lia. do 2 f_equal. nia.
    + destruct (Nat.eq_dec (length words) 0) as [->|Hne]; [lia|].
      destruct (chunk_count_pos (len words) step) as (H1 & H2 & H3);
        [unfold len; lia | assumption |].
      fold count in H1, H2, H3. unfold len in *. nia.
Qed.

Lemma window_words_overlap words max_words overlap start :
  0 <= overlap <= max_words -> 0 <= start ->
  skipn (Z.to_nat (max_words - overlap)) (window_words words max_words start)
  = firstn (Z.to_nat overlap)
      (window_words words max_words (start + (max_words - overlap))).
Proof.
  intros Ho Hs. unfold window_words.
  rewrite skipn_firstn_comm, skipn_skipn, firstn_firstn.
  f_equal; [lia|]. f_equal. lia.
Qed.

(** X3: two chunks in a row share their overlap: what is left of a chunk
    after its first [max_words - overlap] words is the beginning of the
    next chunk, its first [overlap] words (fewer when the text ends
    before). *)
Theorem consecutive_chunks_overlap text max_words overlap :
  0 <= overlap < max_words ->
  let words := split text in
  let step := max_words - overlap in
  exists chunks,
    (forall fuel, (length words < fuel)%nat ->
       chunk_by_words fuel text max_words overlap = Some chunks)
    /\ forall j chunk next,
         nth_error chunks j = Some chunk ->
         nth_error chunks (S j) = Some next ->
         skipn (Z.to_nat step) (split chunk)
         = firstn (Z.to_nat overlap) (split next).
Proof.
  intros Hpar words step.
  set (count := chunk_count (len words) step).
  exists (map (fun j => word_window words max_words (Z.of_nat j * step))
              (seq 0 count)).
  assert (Hstep : 0 < step) by (unfold step; lia).
  split.
  - intros fuel Hfuel. unfold step in *.
    rewrite chunk_by_words_windows by assumption.
    fold words. rewrite windows_word_windows by lia. reflexivity.
  - intros j chunk next Hj Hn.
    rewrite nth_error_map in Hj, Hn.
    destruct (nth_error (seq 0 count) j) as [a|] eqn:Ea; [|discriminate].
    destruct (nth_error (seq 0 count) (S j)) as [b|] eqn:Eb; [|discriminate].
    assert (Hja : a = j).
    { pose proof (nth_error_Some (seq 0 count) j) as H.
      rewrite length_seq in H.
      assert (Hlt : (j < count)%nat) by (apply H; congruence).
      rewrite nth_error_seq in Ea.
      destruct (Nat.ltb_spec j count); [|lia]. now injection Ea. }
    assert (Hjb : b = S j).
    { pose proof (nth_error_Some (seq 0 count) (S j)) as H.
      rewrite length_seq in H.
      assert (Hlt : (S j < count)%nat) by (apply H; congruence).
      rewrite nth_error_seq in Eb.
      destruct (Nat.ltb_spec (S j) count); [|lia]. now injection Eb. }
    subst a b.
    assert (Hc : chunk = word_window words max_words (Z.of_nat j * step))
      by (unfold option_map in Hj; congruence).
    assert (Hx : next = word_window words max_words (Z.of_nat (S j) * step))
      by (unfold option_map in Hn; congruence).
    rewrite Hc, Hx. unfold words. rewrite !split_word_window. fold words.
    subst step. rewrite window_words_overlap by (try lia; nia).
    do 2 f_equal. lia.
Qed.

End ChunkContents.

(* ===================================================================== *)
(** * More on ingestion: what the two lists hold *)
(* ===================================================================== *)

Section IngestionContents.
Import Embedding Contents.

Lemma append_loop (mk : Z -> Z -> meta) (total : Z) (chunks : list str) :
  forall (start : nat) (batch : list str * list meta),
    fold_left
      (fun b ic => (fst b ++ [snd ic], snd b ++ [mk (fst ic) total]))
      (combine (map Z.of_nat (seq start (length chunks))) chunks) batch
    = (fst batch ++ chunks,
       snd batch ++ map (fun i => mk (Z.of_nat i) total)
                        (seq start (length chunks))).
Proof.
  induction chunks as [|c chunks IH]; intros start [texts metas].
  - cbn. now rewrite !app_nil_r.
  - cbn [length seq map combine fold_left fst snd]. rewrite IH.
    cbn [fst snd]. now rewrite <- !app_assoc.
Qed.

Lemma append_chunks_closed mk chunks batch :
  append_chunks mk chunks batch
  = (fst batch ++ chunks, snd batch ++ metas_of mk chunks).
Proof. unfold append_chunks, enumerate. apply append_loop. Qed.

Lemma metas_of_chunks mk chunks :
  (forall i total, chunk_id (mk i total) = i) ->
  (forall i total, total_chunks (mk i total) = total) ->
  Forall2 (chunk_of mk chunks) chunks (metas_of mk chunks).
Proof.
  intros Hid Htot. unfold metas_of.
  assert (H : forall (done : list str) rest,
             Forall2 (chunk_of mk (done ++ rest)) rest
               (map (fun i => mk (Z.of_nat i) (len (done ++ rest)))
                    (seq (length done) (length rest)))).
  { intros done rest. revert done.
    induction rest as [|c rest IH]; intros done; cbn [length seq map];
      constructor.
    - unfold chunk_of. rewrite Hid, Htot. unfold len.
      rewrite length_app. cbn [length]. repeat split; try lia.
      rewrite Nat2Z.id, nth_error_app2, Nat.sub_diag by lia. reflexivity.
    - specialize (IH (done ++ [c])).
      rewrite <- app_assoc, length_app in IH. cbn [length app] in IH.
      now rewrite Nat.add_1_r in IH. }
  exact (H [] chunks).
Qed.

(** *** Course files *)

Lemma fold_append_files (files : list (str * str)) :
  forall batch,
    fold_left
      (fun batch f =>
         append_chunks (course_meta (fst f)) (chunk_document (snd f)) batch)
      files batch
    = (fst batch ++ flat_map (fun f => chunk_document (snd f)) files,
       snd batch
       ++ flat_map (fun f => metas_of (course_meta (fst f))
                                      (chunk_document (snd f))) files).
Proof.
  induction files as [|f files IH]; intros [texts metas]; cbn [fold_left flat_map].
  - now rewrite !app_nil_r.
  - rewrite append_chunks_closed, IH. cbn [fst snd].
    now rewrite <- !app_assoc.
Qed.

Lemma Forall2_flat_map {A B C} (P : B -> C -> Prop) (Q : A -> B -> C -> Prop)
    (f : A -> list B) (g : A -> list C) (l : list A) :
  (forall a, In a l -> Forall2 (Q a) (f a) (g a)) ->
  (forall a b c, In a l -> Q a b c -> P b c) ->
  Forall2 P (flat_map f l) (flat_map g l).
Proof.
  intros HQ HP. induction l as [|a l IH]; cbn [flat_map]; [constructor|].
  apply Forall2_app.
  - eapply Forall2_impl; [|apply HQ; now left].
    intros b c. apply HP. now left.
  - apply IH; intros; [apply HQ | eapply HP]; try eassumption; now right.
Qed.

(** X4: [ingest_markdown_files] returns one meta per text, and the pair at
    each position is a chunk of a file of the folder whose name ends in
    .md: the text is chunk number [chunk_id] of that file's chunks,
    [total_chunks] is their number, so [0 <= chunk_id < total_chunks];
    the files of other names leave no trace, and a missing folder gives
    two empty lists. *)
Theorem ingest_markdown_files_pairs listing :
  ingest_markdown_files None = ([], [])
  /\ Forall2
       (fun t m =>
          exists fname doc,
            In (fname, doc) listing
            /\ endswith fname (lit ".md") = true
            /\ chunk_of (course_meta fname) (chunk_document doc) t m)
       (fst (ingest_markdown_files (Some listing)))
       (snd (ingest_markdown_files (Some listing))).
Proof.
  split; [reflexivity|].
  unfold ingest_markdown_files. rewrite fold_append_files. cbn [fst snd app].
  apply Forall2_flat_map
    with (Q := fun f => chunk_of (course_meta (fst f)) (chunk_document (snd f))).
  - intros f _. apply metas_of_chunks; reflexivity.
  - intros [fname doc] t m Hin Hc. apply filter_In in Hin.
    destruct Hin as [Hin Hmd]. exists fname, doc. auto.
Qed.

(** X5: the files of a folder are ingested one after the other and
    independently: the result for a listing in two parts is the result
    for the first part followed by the result for the second, texts and
    metas alike. *)
Theorem ingest_markdown_files_app listing1 listing2 :
  ingest_markdown_files (Some (listing1 ++ listing2))
  = (fst (ingest_markdown_files (Some listing1))
       ++ fst (ingest_markdown_files (Some listing2)),
     snd (ingest_markdown_files (Some listing1))
       ++ snd (ingest_markdown_files (Some listing2))).
Proof.
  unfold ingest_markdown_files. rewrite !fold_append_files. cbn [fst snd app].
  now rewrite filter_app, !flat_map_app.
Qed.

End IngestionContents.

Section ForumTopics.
Import Embedding Contents.

Lemma topics_get_add k p topics :
  topics_get k (topics_add p topics)
  = if post_topic_id p =? k
    then Some (match topics_get k topics with
               | Some (title, ps) => (title, ps ++ [p])
               | None => (title_of p, [p])
               end)
    else topics_get k topics.
Proof.
  induction topics as [|[k' [title ps]] topics IH]; cbn [topics_add topics_get].
  - fold (title_of p). destruct (post_topic_id p =? k); reflexivity.
  - destruct (Z.eqb_spec k' (post_topic_id p)) as [E|Hne]; cbn [topics_get].
    + destruct (Z.eqb_spec (post_topic_id p) k) as [Ek|Hk];
        destruct (Z.eqb_spec k' k); try lia; reflexivity.
    + destruct (Z.eqb_spec k' k) as [Ek|Hk]; [|exact IH].
      destruct (Z.eqb_spec (post_topic_id p) k); [lia | reflexivity].
Qed.

Lemma topics_add_keys p topics :
  map fst (topics_add p topics)
  = if existsb (Z.eqb (post_topic_id p)) (map fst topics)
    then map fst topics
    else map fst topics ++ [post_topic_id p].
Proof.
  induction topics as [|[k' [title ps]] topics IH];
    cbn [topics_add map fst existsb]; [reflexivity|].
  rewrite (Z.eqb_sym (post_topic_id p) k').
  destruct (Z.eqb_spec k' (post_topic_id p)); cbn [orb map fst]; [reflexivity|].
  rewrite IH. now destruct (existsb _ _).
Qed.

Lemma topics_add_NoDup p topics :
  NoDup (map fst topics) -> NoDup (map fst (topics_add p topics)).
Proof.
  intros Hnd. rewrite topics_add_keys.
  destruct (existsb _ _) eqn:E; [assumption|].
  apply NoDup_app; [assumption | repeat constructor; intros [] | ].
  intros k Hin [<-|[]].
  assert (existsb (Z.eqb (post_topic_id p)) (map fst topics) = true).
  { apply existsb_exists. exists (post_topic_id p). split; [assumption|].
    apply Z.eqb_refl. }
  congruence.
Qed.

Lemma grouped_snoc posts p :
  grouped (posts ++ [p]) = topics_add p (grouped posts).
Proof. unfold grouped. now rewrite fold_left_app. Qed.

Lemma grouped_NoDup posts : NoDup (map fst (grouped posts)).
Proof.
  induction posts as [|p posts IH] using rev_ind; [constructor|].
  rewrite grouped_snoc. now apply topics_add_NoDup.
Qed.

Lemma grouped_get k posts :
  topics_get k (grouped posts)
  = match posts_of k posts with
    | [] => None
    | first :: _ => Some (title_of first, posts_of k posts)
    end.
Proof.
  induction posts as [|p posts IH] using rev_ind; [reflexivity|].
  rewrite grouped_snoc, topics_get_add, IH. unfold posts_of.
  rewrite filter_app. cbn [filter].
  destruct (Z.eqb_spec (post_topic_id p) k) as [Hk|Hk].
  - destruct (filter _ posts) as [|first rest]; reflexivity.
  - rewrite app_nil_r. reflexivity.
Qed.

Lemma topics_get_In k entry topics :
  NoDup (map fst topics) ->
  In (k, entry) topics <-> topics_get k topics = Some entry.
Proof.
  induction topics as [|[k' e'] topics IH]; intros Hnd; cbn [topics_get In].
  - split; [intros [] | discriminate].
  - inversion Hnd as [|? ? Hk' Hnd']; subst.
    destruct (Z.eqb_spec k' k) as [->|Hne].
    + split.
      * intros [[= ->]|Hin]; [reflexivity|].
        exfalso. apply Hk'. apply in_map_iff. now exists (k, entry).
      * intros [= ->]. now left.
    + rewrite <- IH by assumption. split.
      * intros [[= ? ?]|Hin]; [contradiction | assumption].
      * intros Hin. now right.
Qed.

Lemma grouped_entries posts k title ps :
  In (k, (title, ps)) (grouped posts) <->
  exists first rest,
    posts_of k posts = first :: rest
    /\ ps = first :: rest
    /\ title = title_of first.
Proof.
  rewrite topics_get_In, grouped_get by apply grouped_NoDup.
  destruct (posts_of k posts) as [|first rest] eqn:E.
  - split; [discriminate | intros (f & r & H & _); discriminate].
  - split.
    + intros [= <- <-]. now exists first, rest.
    + intros (f & r & [= <- <-] & -> & ->). reflexivity.
Qed.

(** X6: the grouping loop of [ingest_discourse_json] makes one topic per
    topic id that occurs in the file, and no other: the topic of id [k]
    holds exactly the posts of the file whose [topic_id] is [k], in the
    order of the file, under the title of the first of them ("N/A" when
    that post has none); every post is in the topic of its id. *)
Theorem topics_group_posts posts :
  NoDup (map fst (grouped posts))
  /\ (forall k title ps,
        In (k, (title, ps)) (grouped posts) <->
        exists first rest,
          posts_of k posts = first :: rest
          /\ ps = first :: rest
          /\ title = title_of first)
  /\ (forall p, In p posts ->
        exists title ps,
          In (post_topic_id p, (title, ps)) (grouped posts) /\ In p ps).
Proof.
  split; [apply grouped_NoDup|]. split; [apply grouped_entries|].
  intros p Hin.
  assert (Hp : In p (posts_of (post_topic_id p) posts)).
  { unfold posts_of. apply filter_In. split; [assumption | apply Z.eqb_refl]. }
  destruct (posts_of (post_topic_id p) posts) as [|first rest] eqn:E;
    [contradiction|].
  exists (title_of first), (first :: rest). split; [|assumption].
  apply grouped_entries. now exists first, rest.
Qed.

(** *** The order of the posts of a topic *)

Lemma insert_post_perm p l : Permutation (insert_post p l) (p :: l).
Proof.
  induction l as [|q l IH]; cbn [insert_post]; [reflexivity|].
  destruct (post_number q <? post_number p); [|reflexivity].
  rewrite IH. apply perm_swap.
Qed.

Lemma sorted_posts_perm l : Permutation (sorted_posts l) l.
Proof.
  induction l as [|p l IH]; cbn; [reflexivity|].
  rewrite insert_post_perm. now constructor.
Qed.

Lemma insert_post_sorted p l :
  StronglySorted number_le l -> StronglySorted number_le (insert_post p l).
Proof.
  induction 1 as [|q l Hs IH Hq]; cbn [insert_post].
  - repeat constructor.
  - destruct (Z.ltb_spec (post_number q) (post_number p)) as [Hlt|Hge].
    + constructor; [assumption|].
      apply (Permutation_Forall (Permutation_sym (insert_post_perm p l))).
      constructor; [unfold number_le; lia | assumption].
    + constructor; [now constructor|]. constructor; [exact Hge|].
      eapply Forall_impl; [|exact Hq]. unfold number_le. intros x Hx. lia.
Qed.

Lemma insert_post_stable n p l :
  with_number n (insert_post p l) = with_number n (p :: l).
Proof.
  unfold with_number.
  induction l as [|q l IH]; cbn [insert_post]; [reflexivity|].
  destruct (Z.ltb_spec (post_number q) (post_number p)) as [Hlt|Hge];
    [|reflexivity].
  cbn [filter] in *. rewrite IH.
  destruct (Z.eqb_spec (post_number p) n); [|reflexivity].
  destruct (Z.eqb_spec (post_number q) n); [lia | reflexivity].
Qed.

(** X7: the sort of the posts of a topic keeps every post, puts them by
    increasing [post_number] and leaves posts with the same number in the
    order they had. *)
Theorem sorted_posts_ordered posts :
  Permutation (sorted_posts posts) posts
  /\ StronglySorted number_le (sorted_posts posts)
  /\ (forall n, with_number n (sorted_posts posts) = with_number n posts).
Proof.
  split; [apply sorted_posts_perm|]. split.
  - induction posts as [|p posts IH]; cbn; [constructor|].
    now apply insert_post_sorted.
  - intros n. induction posts as [|p posts IH]; [reflexivity|].
    cbn [sorted_posts fold_right]. fold (sorted_posts posts).
    rewrite insert_post_stable. unfold with_number in *. cbn [filter].
    now rewrite IH.
Qed.

(** *** The pairs of the forum *)

Lemma fold_append_topics (topics : list (Z * (str * list post))) :
  forall batch,
    fold_left
      (fun batch topic =>
         let '(tid, (title, ps)) := topic in
         append_chunks (discourse_meta tid title)
           (chunk_document (topic_text title (sorted_posts ps))) batch)
      topics batch
    = (fst batch
       ++ flat_map (fun topic =>
            chunk_document (topic_text (fst (snd topic))
                              (sorted_posts (snd (snd topic))))) topics,
       snd batch
       ++ flat_map (fun topic =>
            metas_of (discourse_meta (fst topic) (fst (snd topic)))
              (chunk_document (topic_text (fst (snd topic))
                                 (sorted_posts (snd (snd topic)))))) topics).
Proof.
  induction topics as [|[tid [title ps]] topics IH]; intros [texts metas];
    cbn [fold_left flat_map].
  - now rewrite !app_nil_r.
  - rewrite append_chunks_closed, IH. cbn [fst snd].
    now rewrite <- !app_assoc.
Qed.

(** X8: [ingest_discourse_json] returns one meta per text, and the pair at
    each position is a chunk of the document of a topic of the file: the
    topic's title followed by all the posts of that topic id by increasing
    number; the meta carries that topic id and title, the text is chunk
    number [chunk_id] of the document and [total_chunks] is the number of
    its chunks.  A missing file gives two empty lists. *)
Theorem ingest_discourse_json_pairs posts :
  ingest_discourse_json None = ([], [])
  /\ Forall2
       (fun t m =>
          exists first rest,
            posts_of (post_topic_id first) posts = first :: rest
            /\ topic_id m = Some (post_topic_id first)
            /\ topic_title m = Some (title_of first)
            /\ chunk_of (discourse_meta (post_topic_id first) (title_of first))
                 (chunk_document
                    (topic_text (title_of first) (sorted_posts (first :: rest))))
                 t m)
       (fst (ingest_discourse_json (Some posts)))
       (snd (ingest_discourse_json (Some posts))).
Proof.
  split; [reflexivity|].
  unfold ingest_discourse_json. rewrite fold_append_topics. cbn [fst snd app].
  fold (grouped posts).
  apply Forall2_flat_map
    with (Q := fun topic =>
                 chunk_of (discourse_meta (fst topic) (fst (snd topic)))
                   (chunk_document (topic_text (fst (snd topic))
                                      (sorted_posts (snd (snd topic)))))).
  - intros topic _. apply metas_of_chunks; reflexivity.
  - intros [k [title ps]] t m Hin Hc. cbn [fst snd] in Hc.
    apply grouped_entries in Hin.
    destruct Hin as (first & rest & Hposts & -> & ->).
    assert (Hk : post_topic_id first = k).
    { assert (Hf : In first (posts_of k posts)) by (rewrite Hposts; now left).
      apply filter_In in Hf. now apply Z.eqb_eq. }
    exists first, rest. rewrite Hk.
    split; [assumption|]. split; [|split; [|exact Hc]].
    + destruct Hc as (_ & _ & _ & ->). reflexivity.
    + destruct Hc as (_ & _ & _ & ->). reflexivity.
Qed.

End ForumTopics.

Section Sources.
Import Embedding Contents.

Lemma lit_inj s s' : lit s = lit s' -> s = s'.
Proof.
  unfold lit. intros H.
  rewrite <- (string_of_list_ascii_of_string s),
          <- (string_of_list_ascii_of_string s').
  f_equal. revert H.
  generalize (list_ascii_of_string s) (list_ascii_of_string s').
  induction l as [|a l IH]; intros [|a' l'] H; try discriminate; [reflexivity|].
  cbn [map] in H. injection H as Ha Hl. f_equal; [|now apply IH].
  rewrite <- (ascii_N_embedding a), <- (ascii_N_embedding a'). now f_equal.
Qed.

Lemma to_int_printable z :
  Z.to_int z <> Decimal.Pos Decimal.Nil /\ Z.to_int z <> Decimal.Neg Decimal.Nil.
Proof.
  destruct z as [|p|p]; cbn; split; try discriminate;
    intros [= H]; now apply DecimalPos.Unsigned.to_uint_nonnil in H.
Qed.

(** [str(n)] tells the integers apart. *)
Lemma str_of_int_inj a b : str_of_int a = str_of_int b -> a = b.
Proof.
  unfold str_of_int. intros H. apply lit_inj in H.
  apply DecimalZ.to_int_inj.
  destruct (to_int_printable a) as [Ha1 Ha2].
  destruct (to_int_printable b) as [Hb1 Hb2].
  pose proof (NilZero.isi _ Ha1 Ha2) as Ea.
  pose proof (NilZero.isi _ Hb1 Hb2) as Eb.
  rewrite H in Ea. congruence.
Qed.

(** X9: the [source] of a forum chunk depends on the topic id only, and
    two topics of different ids never get the same source. *)
Theorem forum_sources_distinct tid tid' title title' idx idx' total total' :
  source (discourse_meta tid title idx total)
  = source (discourse_meta tid' title' idx' total') <-> tid = tid'.
Proof.
  cbn [source discourse_meta]. split.
  - intros H. apply app_inv_head in H. now apply str_of_int_inj.
  - now intros ->.
Qed.

End Sources.

(* ===================================================================== *)
(** * More on the embedding client: what a call costs *)
(* ===================================================================== *)

Section EmbeddingCost.
Import Embedding Contents.

Variable provider : nat -> str -> exn + list float.
Variable np_normalize : list float -> vector.

Abbreviation embed_text := (embed_text provider np_normalize).
Abbreviation safe_embed_fuel := (safe_embed_fuel provider np_normalize).
Abbreviation safe_embed := (safe_embed provider np_normalize).

Lemma short_text_run text :
  len text <= 10000 ->
  forall d j w,
    (j + d = 3)%nat ->
    exists k,
      (k <= d)%nat
      /\ snd (safe_embed text (Z.of_nat j) w) = after w (S k) (waits j k).
Proof.
  intros Hlen. induction d as [|d IH]; intros j w Hjd;
    rewrite safe_embed_eq; unfold Embedding.embed_text;
    destruct (provider (calls w) text) as [e|raw].
  - exists 0%nat. split; [lia|].
    destruct (is_rate_signal e).
    + destruct (Z.ltb_spec (Z.of_nat j) 3); [lia|]. apply after_tick.
    + destruct (Z.gtb_spec (len text) 10000); [lia|]. apply after_tick.
  - exists 0%nat. split; [lia | apply after_tick].
  - destruct (is_rate_signal e).
    + destruct (Z.ltb_spec (Z.of_nat j) 3); [|lia].
      cbv zeta. rewrite time_sleep_wait by lia.
      replace (Z.of_nat j + 1) with (Z.of_nat (S j)) by lia.
      destruct (IH (S j) (sleep (10 * Z.of_nat (S j)) (tick w)) ltac:(lia))
        as (k & Hk & Hrun).
      exists (S k). split; [lia|].
      rewrite Hrun, after_sleep_tick. unfold waits. cbn [seq map].
      replace (Z.of_nat j + 1) with (Z.of_nat (S j)) by lia. reflexivity.
    + exists 0%nat. split; [lia|].
      destruct (Z.gtb_spec (len text) 10000); [lia|]. apply after_tick.
  - exists 0%nat. split; [lia | apply after_tick].
Qed.

(** X10: on a text of at most 10,000 characters, whatever the provider
    does, [safe_embed] makes between one and four provider calls and
    waits before each call but the first: 10, then 20, then 30 seconds,
    so at most 60 seconds in all; it touches neither store. *)
Theorem safe_embed_short_text_cost text w :
  len text <= 10000 ->
  exists k,
    (k <= 3)%nat
    /\ snd (safe_embed text 0 w) = after w (S k) (firstn k [10; 20; 30]).
Proof.
  intros Hlen.
  destruct (short_text_run text Hlen 3 0 w eq_refl) as (k & Hk & Hrun).
  exists k. split; [assumption|].
  change 0 with (Z.of_nat 0). rewrite Hrun. f_equal.
  destruct k as [|[|[|[|k]]]]; try reflexivity; lia.
Qed.

Lemma safe_embed_fuel_calls fuel :
  forall text retry_count w r w',
    0 <= retry_count ->
    5000 <= len text ->
    safe_embed_fuel fuel text retry_count w = Some (r, w') ->
    (calls w < calls w')%nat
    /\ 625 * (Z.of_nat (calls w') - Z.of_nat (calls w) + 8)
       <= len text + 625 * attempts retry_count.
Proof.
  induction fuel as [|fuel IH]; intros text rc w r w' Hrc Hlen Hrun;
    [discriminate|].
  cbn [Embedding.safe_embed_fuel] in Hrun. unfold Embedding.embed_text in Hrun.
  unfold attempts.
  destruct (provider (calls w) text) as [e|raw].
  - destruct (is_rate_signal e).
    + destruct (Z.ltb_spec rc 3).
      * cbv zeta in Hrun. rewrite time_sleep_wait in Hrun by lia.
        apply IH in Hrun; [|lia|assumption]. unfold attempts in Hrun.
        cbn [calls sleep tick] in Hrun. lia.
      * inversion Hrun; subst. cbn [calls tick]. lia.
    + destruct (Z.gtb_spec (len text) 10000) as [Hlong|].
      * cbv zeta in Hrun.
        set (mid := Z.to_nat (len text / 2)) in *.
        assert (Hmid : 5000 <= Z.of_nat mid <= len text - 5000).
        { unfold mid. rewrite Z2Nat.id by (apply Z.div_pos; lia).
          split; [apply Z.div_le_lower_bound; lia|].
          apply Z.lt_succ_r. apply Z.div_lt_upper_bound; lia. }
        assert (Hl : len (firstn mid text) = Z.of_nat mid)
          by (unfold len in *; rewrite length_firstn; lia).
        assert (Hr : len (skipn mid text) = len text - Z.of_nat mid)
          by (unfold len in *; rewrite length_skipn; lia).
        destruct (safe_embed_fuel fuel (firstn mid text) 0 (tick w))
          as [[[l|e1] w2]|] eqn:El; [| |discriminate].
        -- apply IH in El; [|lia|lia]. unfold attempts in El.
           cbn [calls tick] in El.
           destruct (safe_embed_fuel fuel (skipn mid text) 0 w2)
             as [[[r'|e2] w3]|] eqn:Er; [| |discriminate];
             (apply IH in Er; [|lia|lia]); unfold attempts in Er;
             inversion Hrun; subst; lia.
        -- apply IH in El; [|lia|lia]. unfold attempts in El.
           cbn [calls tick] in El. inversion Hrun; subst. lia.
      * inversion Hrun; subst. cbn [calls tick]. lia.
  - inversion Hrun; subst. cbn [calls tick]. lia.
Qed.

(** X11: on a longer text the halving goes on only as long as the halves
    are refused, and the number of provider calls stays in proportion to
    the length: a call on a text of [n > 10000] characters makes at most
    [n / 625 - 4] provider calls (15 for 12,000 characters), whatever the
    provider does. *)
Theorem safe_embed_long_text_cost text w :
  10000 < len text ->
  let w' := snd (safe_embed text 0 w) in
  (calls w < calls w')%nat
  /\ 625 * (Z.of_nat (calls w') - Z.of_nat (calls w) + 4) <= len text.
Proof.
  intros Hlen w'.
  pose proof (safe_embed_fuel_enough provider np_normalize
                (fuel_for text 0) text 0 w (Nat.le_refl _)) as Hrun.
  destruct (safe_embed text 0 w) as [r w1] eqn:E. subst w'. cbn [snd].
  apply safe_embed_fuel_calls in Hrun; [|lia|lia].
  unfold attempts in Hrun. lia.
Qed.

End EmbeddingCost.

Section RateSignal.
Import Embedding Contents.

Lemma starts_with_app pat rest : starts_with pat (pat ++ rest) = true.
Proof.
  induction pat as [|c pat IH]; [now destruct rest|].
  cbn. now rewrite N.eqb_refl, IH.
Qed.

Lemma contains_app pat before rest :
  contains pat (before ++ pat ++ rest) = true.
Proof.
  induction before as [|c before IH].
  - cbn [app]. destruct (pat ++ rest) eqn:E; cbn [contains];
      rewrite <- E, starts_with_app; reflexivity.
  - cbn [app contains]. rewrite IH. apply orb_true_r.
Qed.

(** X12: the test for a rate-limit failure looks for the letters "quota"
    or "rate" anywhere in the message, in any case: an exception whose
    message merely contains them inside a word, such as "generate", is
    taken for a rate-limit signal. *)
Theorem rate_signal_by_substring before word rest :
  lower word = lit "rate" \/ lower word = lit "quota" ->
  is_rate_signal (Exception (before ++ word ++ rest)) = true.
Proof.
  intros H. unfold is_rate_signal, lower. cbn [str_of_exn].
  rewrite !map_app. fold (lower word).
  destruct H as [-> | ->].
  - rewrite (contains_app (lit "rate")). apply orb_true_r.
  - now rewrite (contains_app (lit "quota")).
Qed.

End RateSignal.

(* ===================================================================== *)
(** * More on the ingestion run: what it commits *)
(* ===================================================================== *)

Section Batches.
Import Embedding Contents.

Lemma slice_batch {A} (l : list A) (i size : Z) :
  0 <= i -> 0 <= size ->
  slice l i (i + size) = firstn (Z.to_nat size) (skipn (Z.to_nat i) l).
Proof.
  intros Hi Hs. unfold slice, clamp, len.
  set (n := Z.of_nat (length l)).
  assert (Hn : 0 <= n) by (unfold n; lia).
  destruct (Z.ltb_spec i 0) as [|_]; [lia|].
  destruct (Z.ltb_spec (i + size) 0) as [|_]; [lia|].
  destruct (Z_le_gt_dec i n) as [Hle|Hgt].
  - rewrite (Z.min_l i n) by lia.
    destruct (Z_le_gt_dec (i + size) n) as [Hle'|Hgt'].
    + rewrite Z.min_l by lia. f_equal. lia.
    + rewrite Z.min_r by lia.
      rewrite !firstn_all2; [reflexivity| |]; rewrite length_skipn;
        unfold n in *; lia.
  - rewrite !skipn_all2 by (unfold n in *; lia). now rewrite !firstn_nil.
Qed.

Lemma offsets_seq {A} (l : list A) :
  offsets l = map (fun j => Z.of_nat j * BATCH_SIZE)
                  (seq 0 (chunk_count (len l) BATCH_SIZE)).
Proof.
  unfold offsets, range, chunk_count. rewrite Z.sub_0_r.
  apply map_ext. intros j. lia.
Qed.

(** X13: the batches of [main] cut [all_texts] into consecutive slices:
    put end to end they give the list back, and each holds at least one
    text and at most [BATCH_SIZE]; so [index_batch] is never called on an
    empty batch. *)
Theorem batches_partition {A} (l : list A) :
  concat (map (fun i => slice l i (i + BATCH_SIZE)) (offsets l)) = l
  /\ Forall (fun i => 1 <= len (slice l i (i + BATCH_SIZE)) <= BATCH_SIZE)
            (offsets l).
Proof.
  rewrite offsets_seq. split.
  - rewrite map_map.
    etransitivity;
      [|apply (concat_heads l (Z.to_nat BATCH_SIZE) ltac:(vm_compute; lia)
                 (chunk_count (len l) BATCH_SIZE) l)].
    + f_equal. apply map_ext. intros j.
      rewrite slice_batch by (unfold BATCH_SIZE; lia).
      do 2 f_equal. unfold BATCH_SIZE. lia.
    + destruct (Nat.eq_dec (length l) 0) as [->|Hne]; [lia|].
      destruct (chunk_count_pos (len l) BATCH_SIZE) as (H1 & H2 & H3);
        [unfold len; lia | reflexivity |].
      unfold len, BATCH_SIZE in *. lia.
  - apply Forall_forall. intros i Hi. apply in_map_iff in Hi.
    destruct Hi as (j & <- & Hj). apply in_seq in Hj.
    rewrite slice_batch by (unfold BATCH_SIZE; lia).
    assert (Hbelow : Z.of_nat j * BATCH_SIZE < len l).
    { apply chunk_count_below; [unfold len; lia | reflexivity | lia]. }
    unfold len in *. rewrite length_firstn, length_skipn.
    unfold BATCH_SIZE in *. lia.
Qed.

End Batches.

Section Commits.
Import Embedding Contents.

Variable provider : nat -> str -> exn + list float.
Variable np_normalize : list float -> vector.
Variable index_refuses : list vector -> option exn.
Variable float32 : float -> float.

Abbreviation safe_embed := (safe_embed provider np_normalize).
Abbreviation embed_loop := (embed_loop provider np_normalize).
Abbreviation index_batch :=
  (index_batch provider np_normalize index_refuses float32).
Abbreviation run_batches :=
  (run_batches provider np_normalize index_refuses float32).
Abbreviation main := (main provider np_normalize index_refuses float32).

Lemma index_batch_raised texts metas w e w' :
  index_batch texts metas w = (Raised e, w') ->
  index w' = index w /\ metadata w' = metadata w.
Proof.
  unfold Embedding.index_batch. intros Hrun.
  destruct (embed_loop texts [] w) as [[embs|e'] w1] eqn:El;
    apply embed_loop_result in El; destruct El as (E1 & E2 & _).
  - destruct (index_refuses embs); [|discriminate].
    inversion Hrun; subst. now split.
  - inversion Hrun; subst. now split.
Qed.

(** X14: a batch is committed whole or not at all: when [index_batch]
    raises, because an embedding failed or because numpy or FAISS refused
    the vectors, the index and the metadata list are as they were before
    the call; when it returns, the index has grown by one vector per text
    of the batch. *)
Theorem index_batch_all_or_nothing texts metas w r w' :
  index_batch texts metas w = (r, w') ->
  match r with
  | Raised _ => index w' = index w /\ metadata w' = metadata w
  | Ok _ =>
      exists embs,
        length embs = length texts
        /\ index w' = index w ++ map (map float32) embs
        /\ metadata w' = metadata w ++ records texts metas
  end.
Proof.
  intros Hrun. destruct r as [[]|e].
  - unfold Embedding.index_batch in Hrun.
    destruct (embed_loop texts [] w) as [[embs|e'] w1] eqn:El; [|discriminate].
    apply embed_loop_result in El. destruct El as (E1 & E2 & Hnew).
    destruct (Hnew embs eq_refl) as (new & Hembs & HF). cbn in Hembs. subst new.
    destruct (index_refuses embs); [discriminate|].
    inversion Hrun; subst. exists embs. cbn [index metadata commit].
    rewrite E1, E2. repeat split.
    symmetry. eapply Forall2_length. eassumption.
  - eapply index_batch_raised. eassumption.
Qed.







End Commits.

(* ===================================================================== *)
(** * More on the query path *)
(* ===================================================================== *)

Section BestResults.
Import App.

Variable metadata : list meta.
Variable index_search : vector -> Z -> exn + (list float * list Z).

Abbreviation search_similar := (search_similar metadata index_search).
Abbreviation eligible := (eligible metadata).

Lemma search_similar_ok query_embedding top_k results :
  search_similar query_embedding top_k = Ok results ->
  exists distances indices,
    index_search query_embedding (top_k * 2) = inr (distances, indices)
    /\ results
       = slice (sort_desc (eligible SIMILARITY_THRESHOLD
                             (combine distances indices))) 0 top_k.
Proof.
  unfold App.search_similar.
  destruct (index_search query_embedding (top_k * 2)) as [e|[distances indices]];
    [discriminate|].
  rewrite fold_visit. cbn [app]. intros [= <-]. now exists distances, indices.
Qed.

Lemma sorted_app_below (l1 l2 : list result) :
  StronglySorted not_below (l1 ++ l2) ->
  Forall (fun r => Forall (not_below r) l2) l1.
Proof.
  induction l1 as [|r l1 IH]; cbn [app]; intros Hs; constructor.
  - inversion Hs as [|? ? _ Hr]; subst. now apply Forall_app in Hr.
  - apply IH. now inversion Hs.
Qed.

(** X16: [search_similar] returns the best of the kept candidates and as
    many as it can: [min(top_k, number kept)] results, of which none is
    outranked by a kept candidate it leaves out. *)
Theorem search_similar_best query_embedding top_k distances indices :
  0 <= top_k ->
  index_search query_embedding (top_k * 2) = inr (distances, indices) ->
  let accepted := eligible SIMILARITY_THRESHOLD (combine distances indices) in
  exists results left_out,
    search_similar query_embedding top_k = Ok results
    /\ Permutation (results ++ left_out) accepted
    /\ len results = Z.min top_k (len accepted)
    /\ Forall (fun r => Forall (not_below r) left_out) results.
Proof.
  intros Hk Hsearch accepted.
  exists (firstn (Z.to_nat top_k) (sort_desc accepted)),
         (skipn (Z.to_nat top_k) (sort_desc accepted)).
  assert (Hnan : Forall (fun r => is_nan (similarity r) = false) accepted).
  { eapply Forall_impl; [|apply eligible_threshold].
    intros r Hr. eapply SFleb_not_nan. exact Hr. }
  split; [|split; [|split]].
  - unfold App.search_similar. rewrite Hsearch, fold_visit. cbn [app].
    fold accepted. now rewrite slice_firstn.
  - rewrite firstn_skipn. apply sort_desc_perm.
  - unfold len. rewrite length_firstn.
    rewrite (Permutation_length (sort_desc_perm accepted)). lia.
  - apply sorted_app_below. rewrite firstn_skipn.
    now apply sort_desc_sorted.
Qed.

End BestResults.

Section Prompt.
Import App.

Lemma context_parts_closed chunks :
  forall (start : nat) acc,
    fst (fold_left add_source
           (combine (map Z.of_nat (seq start (length chunks))) chunks) acc)
    = fst acc
      ++ map (fun ic => lit "[Source " ++ str_of_int (fst ic + 1) ++ lit "]:"
                        ++ nl ++ content (snd ic) ++ nl)
             (combine (map Z.of_nat (seq start (length chunks))) chunks).
Proof.
  induction chunks as [|c chunks IH]; intros start [parts d];
    cbn [length seq map combine fold_left fst].
  - now rewrite app_nil_r.
  - unfold add_source at 2. cbn [fst snd]. rewrite IH. cbn [fst snd].
    now rewrite <- app_assoc.
Qed.

Lemma nth_error_enumerate {A} (l : list A) :
  forall (start i : nat) x,
    nth_error l i = Some x ->
    nth_error (combine (map Z.of_nat (seq start (length l))) l) i
    = Some (Z.of_nat (start + i), x).
Proof.
  induction l as [|a l IH]; intros start [|i] x Hi; cbn in Hi; try discriminate.
  - injection Hi as ->. cbn. now rewrite Nat.add_0_r.
  - cbn [length seq map combine nth_error]. rewrite (IH (S start) i x Hi).
    do 2 f_equal. lia.
Qed.

Lemma join_part sep part parts :
  In part parts ->
  exists before rest, join sep parts = before ++ part ++ rest.
Proof.
  induction parts as [|p parts IH]; intros Hin; [contradiction|].
  destruct Hin as [->|Hin].
  - destruct parts as [|q parts].
    + exists [], []. cbn. now rewrite app_nil_r.
    + exists [], (sep ++ join sep (q :: parts)). reflexivity.
  - destruct (IH Hin) as (before & rest & E).
    destruct parts as [|q parts]; [contradiction|].
    exists (p ++ sep ++ before), rest.
    change (join sep (p :: q :: parts)) with (p ++ sep ++ join sep (q :: parts)).
    rewrite E. now rewrite <- !app_assoc.
Qed.

(** X17: the prompt sent to the generative model carries the question as
    it was asked and, for the chunk in each position [i], the label
    "[Source i+1]:" followed on the next line by the whole text of the
    chunk, not only the 150 characters kept for its link. *)
Theorem prompt_carries_chunks question chunks :
  contains (lit "Question: " ++ question ++ nl) (prompt_of question chunks) = true
  /\ forall i chunk,
       nth_error chunks i = Some chunk ->
       contains (lit "[Source " ++ str_of_int (Z.of_nat i + 1) ++ lit "]:" ++ nl
                 ++ content chunk ++ nl)
                (prompt_of question chunks) = true.
Proof.
  unfold prompt_of, build_prompt. split.
  - set (context := join nl _).
    set (head := lit "You are a helpful teaching assistant. Answer the student's question using ONLY the provided context below.").
    set (tail := lit "Instructions:" ++ _).
    replace (head ++ nl ++ nl ++ lit "Context:" ++ nl ++ context ++ nl ++ nl
             ++ lit "Question: " ++ question ++ nl ++ nl ++ tail)
      with ((head ++ nl ++ nl ++ lit "Context:" ++ nl ++ context ++ nl ++ nl)
            ++ (lit "Question: " ++ question ++ nl) ++ (nl ++ tail))
      by (now rewrite <- !app_assoc).
    apply contains_app.
  - intros i chunk Hi. unfold enumerate.
    rewrite (context_parts_closed chunks 0 ([], [])). cbn [fst app].
    set (part := lit "[Source " ++ str_of_int (Z.of_nat i + 1) ++ lit "]:" ++ nl
                 ++ content chunk ++ nl).
    set (parts := map _ _).
    assert (Hin : In part parts).
    { unfold parts. apply in_map_iff. exists (Z.of_nat i, chunk). split;
        [reflexivity|].
      apply (nth_error_In _ i).
      now rewrite (nth_error_enumerate chunks 0 i chunk Hi). }
    destruct (join_part nl part parts Hin) as (before & rest & ->).
    set (head := lit "You are a helpful teaching assistant. Answer the student's question using ONLY the provided context below.").
    set (tail := nl ++ nl ++ lit "Question: " ++ _).
    replace (head ++ nl ++ nl ++ lit "Context:" ++ nl
             ++ (before ++ part ++ rest) ++ tail)
      with ((head ++ nl ++ nl ++ lit "Context:" ++ nl ++ before)
            ++ part ++ (rest ++ tail))
      by (now rewrite <- !app_assoc).
    apply contains_app.
Qed.

End Prompt.

(* ===================================================================== *)
(** * Properties of the query endpoint *)
(* ===================================================================== *)

Section QueryEndpoint.
Import App Endpoint.

Variable metadata : list meta.
Variable index_search : vector -> Z -> exn + (list float * list Z).
Variable embed_content : nat -> str -> exn + list float.
Variable np_normalize : list float -> vector.
Variable generate_content : nat -> str -> exn + str.

Abbreviation search_similar := (search_similar metadata index_search).
Abbreviation generate_answer := (generate_answer generate_content).
Abbreviation get_embedding := (get_embedding embed_content np_normalize).
Abbreviation query_knowledge_base :=
  (query_knowledge_base metadata index_search embed_content np_normalize
     generate_content).

Lemma get_embedding_raised text s e s' :
  get_embedding text s = (Raised e, s') -> stage_error e.
Proof.
  unfold Endpoint.get_embedding.
  destruct (embed_content (embedded s) text) as [err|values]; [|discriminate].
  intros [= <- _]. exists (lit "Embedding error: "), (str_of_exn err).
  split; [now left | reflexivity].
Qed.

Lemma search_similar_raised query_embedding top_k e :
  search_similar query_embedding top_k = Raised e -> stage_error e.
Proof.
  unfold App.search_similar.
  destruct (index_search query_embedding (top_k * 2)) as [err|[distances indices]].
  - intros [= <-]. exists (lit "Search error: "), (str_of_exn err).
    split; [right; now left | reflexivity].
  - rewrite fold_visit. discriminate.
Qed.

Lemma generate_answer_cases question chunks prompts :
  generate_answer question chunks prompts
  = match chunks with
    | [] => (Ok {| answer := no_information; links := [] |}, prompts)
    | _ =>
        (match generate_content (length prompts) (prompt_of question chunks) with
         | inr answer_text =>
             Ok {| answer := answer_text; links := map link_of chunks |}
         | inl e =>
             Raised (HTTPException 500 (lit "Generation error: " ++ str_of_exn e))
         end, prompts ++ [prompt_of question chunks])
    end.
Proof.
  destruct chunks as [|chunk chunks]; [reflexivity|].
  set (context_chunks := chunk :: chunks).
  unfold App.generate_answer. fold context_chunks.
  pose proof (links_of_sources context_chunks) as Hlinks.
  unfold prompt_of.
  destruct (fold_left add_source (enumerate context_chunks) ([], []))
    as [context_parts sources_used].
  cbn [fst snd] in *. unfold context_chunks at 1.
  destruct (generate_content (length prompts) _); [reflexivity|].
  now rewrite Hlinks.
Qed.

Lemma handled_stage_error {A} (r : res A) e :
  (forall e', r = Raised e' -> stage_error e') ->
  handled r = Raised e -> stage_error e.
Proof.
  intros Hr. destruct r as [a|[msg|status detail]]; cbn [handled];
    [discriminate| |].
  - destruct (Hr _ eq_refl) as (stage & detail & _ & [=]).
  - intros [= <-]. now apply Hr.
Qed.

(** X18: whatever the three services do, a query makes exactly one
    embedding call and sends at most one prompt, after the prompts sent
    before it; when it fails, the error has status 500 and its detail
    starts with the name of the stage that failed, the embedding, the
    search or the generation. *)
Theorem query_knowledge_base_errors question s :
  let '(outcome, s') := query_knowledge_base question s in
  embedded s' = S (embedded s)
  /\ (sent s' = sent s \/ exists prompt, sent s' = sent s ++ [prompt])
  /\ forall e, outcome = Raised e -> stage_error e.
Proof.
  unfold Endpoint.query_knowledge_base.
  destruct (get_embedding question s) as [[query_embedding|e0] s1] eqn:Hemb.
  - assert (Hs1 : embedded s1 = S (embedded s) /\ sent s1 = sent s).
    { unfold Endpoint.get_embedding in Hemb.
      destruct (embed_content (embedded s) question); injection Hemb as _ <-;
        now split. }
    destruct Hs1 as [Hcalls Hsent].
    destruct (search_similar query_embedding TOP_K_RESULTS)
      as [similar_chunks|e1] eqn:Hsearch.
    + rewrite generate_answer_cases.
      destruct similar_chunks as [|chunk chunks].
      * cbn [handled embedded sent]. repeat split; auto. discriminate.
      * cbn [embedded sent]. rewrite Hsent. repeat split; eauto.
        intros e. apply handled_stage_error. intros e'.
        destruct (generate_content _ _) as [err|answer_text]; [|discriminate].
        intros [= <-]. exists (lit "Generation error: "), (str_of_exn err).
        split; [right; right; now left | reflexivity].
    + repeat split; auto. intros e. apply handled_stage_error.
      intros e' [= <-]. eapply search_similar_raised. exact Hsearch.
  - assert (Hs1 : embedded s1 = S (embedded s) /\ sent s1 = sent s).
    { unfold Endpoint.get_embedding in Hemb.
      destruct (embed_content (embedded s) question); injection Hemb as _ <-;
        now split. }
    destruct Hs1 as [Hcalls Hsent].
    repeat split; auto. intros e. apply handled_stage_error.
    intros e' [= <-]. eapply get_embedding_raised. exact Hemb.
Qed.

Lemma search_similar_sources query_embedding top_k results :
  0 <= top_k ->
  search_similar query_embedding top_k = Ok results ->
  len results <= top_k
  /\ Forall (fun r => exists m dist, In m metadata /\ r = result_of m dist)
            results.
Proof.
  intros Hk Hok.
  destruct (search_similar_ok _ _ _ _ _ Hok) as (distances & indices & _ & ->).
  rewrite slice_firstn by assumption. split.
  - unfold len. rewrite length_firstn. lia.
  - apply Forall_forall. intros r Hr. apply firstn_In in Hr.
    apply (Permutation_in _ (sort_desc_perm _)) in Hr.
    destruct (eligible_in _ _ _ _ Hr) as (dist & idx & m & _ & _ & Hm & _ & ->).
    exists m, dist. split; [|reflexivity].
    eapply nth_error_In. exact Hm.
Qed.

(** X19: an answer of the query endpoint has at most five links, and each
    link cites a record of the loaded metadata: its url is the record's
    source and its text the first 150 characters of the record's text.
    An answer without links is the fixed sentence about missing
    information, and no prompt was sent for it; an answer with links
    cost one prompt. *)
Theorem query_knowledge_base_links question s answered s' :
  query_knowledge_base question s = (Ok answered, s') ->
  len (links answered) <= TOP_K_RESULTS
  /\ Forall (fun l => exists m, In m metadata
                                /\ url l = meta_source m
                                /\ link_text l = firstn 150 (meta_text m))
            (links answered)
  /\ match links answered with
     | [] => answer answered = no_information /\ sent s' = sent s
     | _ => exists prompt, sent s' = sent s ++ [prompt]
     end.
Proof.
  unfold Endpoint.query_knowledge_base.
  destruct (get_embedding question s) as [[query_embedding|e0] s1] eqn:Hemb.
  2:{ destruct e0; cbn [handled]; discriminate. }
  assert (Hsent : sent s1 = sent s).
  { unfold Endpoint.get_embedding in Hemb.
    destruct (embed_content (embedded s) question); now injection Hemb as _ <-. }
  destruct (search_similar query_embedding TOP_K_RESULTS)
    as [similar_chunks|e1] eqn:Hsearch.
  2:{ destruct e1; cbn [handled]; discriminate. }
  assert (Hk : 0 <= TOP_K_RESULTS) by (unfold TOP_K_RESULTS; lia).
  destruct (search_similar_sources _ _ _ Hk Hsearch) as [Hlen Hsrc].
  rewrite generate_answer_cases.
  destruct similar_chunks as [|chunk chunks].
  - cbn [handled]. intros [= <- <-]. cbn [links answer sent].
    repeat split; auto.
  - destruct (generate_content _ _) as [err|answer_text];
      [cbn [handled]; discriminate|].
    cbn [handled]. intros [= <- <-]. cbn [links answer sent].
    split; [|split].
    + unfold len in *. cbn [length] in *. now rewrite length_map.
    + change (link_of chunk :: map link_of chunks)
        with (map link_of (chunk :: chunks)).
      apply Forall_map. eapply Forall_impl; [|exact Hsrc].
      intros r (m & dist & Hm & ->). exists m. now split.
    + cbn [map]. rewrite Hsent. eauto.
Qed.

End QueryEndpoint.

(* ===================================================================== *)
(** * More runs on concrete inputs *)
(* ===================================================================== *)

Section FurtherRuns.
Import Embedding Contents Scenario Cases.

(** ** Chunks of five words, three at a time with one in common *)

Lemma chunks_split_to_windows_witness :
  0 <= 1 < 3
  /\ exists chunks,
       (forall fuel, (length (split sentence) < fuel)%nat ->
          chunk_by_words fuel sentence 3 1 = Some chunks)
       /\ split (join (lit " ") (split sentence)) = split sentence
       /\ map split chunks
          = map (fun j => window_words (split sentence) 3 (Z.of_nat j * (3 - 1)))
                (seq 0 (length chunks))
       /\ Forall (fun chunk =>
                    (1 <= length (split chunk) <= Z.to_nat 3)%nat) chunks.
Proof.
  split; [lia | exact (chunks_split_to_windows sentence 3 1 ltac:(lia))].
Defined.

Lemma chunks_cover_the_words_witness :
  0 <= 1 < 3
  /\ exists chunks,
       (forall fuel, (length (split sentence) < fuel)%nat ->
          chunk_by_words fuel sentence 3 1 = Some chunks)
       /\ concat (map (fun chunk => firstn (Z.to_nat (3 - 1)) (split chunk)) chunks)
          = split sentence.
Proof.
  split; [lia | exact (chunks_cover_the_words sentence 3 1 ltac:(lia))].
Defined.

Lemma consecutive_chunks_overlap_witness :
  0 <= 1 < 3
  /\ exists chunks,
       (forall fuel, (length (split sentence) < fuel)%nat ->
          chunk_by_words fuel sentence 3 1 = Some chunks)
       /\ forall j chunk next,
            nth_error chunks j = Some chunk ->
            nth_error chunks (S j) = Some next ->
            skipn (Z.to_nat (3 - 1)) (split chunk)
            = firstn (Z.to_nat 1) (split next).
Proof.
  split; [lia | exact (consecutive_chunks_overlap sentence 3 1 ltac:(lia))].
Defined.

(** The three chunks of the sentence. *)
Example sentence_chunks :
  chunk_by_words 6 sentence 3 1
  = Some [lit "one two three"; lit "three four five"; lit "five"].
Proof. vm_compute. reflexivity. Qed.

(** ** Provider calls *)

Lemma safe_embed_short_text_cost_witness :
  len (lit "What is RAG?") <= 10000
  /\ exists k,
       (k <= 3)%nat
       /\ snd (safe_embed provider_three_failures np_normalize32
                 (lit "What is RAG?") 0 initial_world)
          = after initial_world (S k) (firstn k [10; 20; 30]).
Proof.
  assert (H : len (lit "What is RAG?") <= 10000) by (vm_compute; discriminate).
  split; [exact H|].
  exact (safe_embed_short_text_cost provider_three_failures np_normalize32
           (lit "What is RAG?") initial_world H).
Defined.

Lemma safe_embed_long_text_cost_witness :
  10000 < len text12000
  /\ (calls initial_world
      < calls (snd (safe_embed provider_size_limit np_normalize32 text12000 0
                      initial_world)))%nat
  /\ 625 * (Z.of_nat (calls (snd (safe_embed provider_size_limit np_normalize32
                                    text12000 0 initial_world)))
            - Z.of_nat (calls initial_world) + 4)
     <= len text12000.
Proof.
  assert (H : 10000 < len text12000) by (vm_compute; reflexivity).
  split; [exact H|].
  exact (safe_embed_long_text_cost provider_size_limit np_normalize32 text12000
           initial_world H).
Defined.

(** The 12,000 characters cost three provider calls: the text, then its
    two halves. *)
Example text12000_calls :
  calls (snd (safe_embed provider_size_limit np_normalize32 text12000 0
                initial_world)) = 3%nat.
Proof. vm_compute. reflexivity. Qed.

Lemma rate_signal_by_substring_witness :
  (lower (lit "rate") = lit "rate" \/ lower (lit "rate") = lit "quota")
  /\ is_rate_signal cannot_generate = true.
Proof.
  assert (H : lower (lit "rate") = lit "rate" \/ lower (lit "rate") = lit "quota")
    by (left; reflexivity).
  split; [exact H|].
  exact (rate_signal_by_substring (lit "Failed to gene") (lit "rate")
           (lit " the embedding.") H).
Defined.

(** ** Batches *)

(** The second embedding of the batch fails: the first vector is dropped
    with it. *)
Lemma index_batch_all_or_nothing_witness :
  index_batch provider_fails_later np_normalize32 faiss_refuses to_f32
    [lit "first chunk"; lit "second chunk"]
    [course_meta (lit "week1.md") 0 2; course_meta (lit "week1.md") 1 2]
    initial_world
  = (Raised internal_error, after initial_world 2 [])
  /\ index (after initial_world 2 []) = index initial_world
  /\ metadata (after initial_world 2 []) = metadata initial_world.
Proof.
  assert (H : index_batch provider_fails_later np_normalize32 faiss_refuses to_f32
                [lit "first chunk"; lit "second chunk"]
                [course_meta (lit "week1.md") 0 2; course_meta (lit "week1.md") 1 2]
                initial_world
              = (Raised internal_error, after initial_world 2 []))
    by (vm_compute; reflexivity).
  split; [exact H|].
  exact (index_batch_all_or_nothing provider_fails_later np_normalize32
           faiss_refuses to_f32 _ _ _ _ _ H).
Defined.


(** A run whose second embedding fails leaves both stores empty. *)
Example failed_run_commits_nothing :
  let w := snd (main provider_fails_later np_normalize32 faiss_refuses to_f32
                     (Some course_files) (Some forum_posts) initial_world) in
  index w = [] /\ metadata w = [].
Proof. vm_compute. split; reflexivity. Qed.

End FurtherRuns.

Section QueryRuns.
Import App Endpoint Scenario Cases.

(** ** Search *)

Lemma search_similar_best_witness :
  exists results left_out,
    search_similar loaded_metadata search_ties unit_0 2 = Ok results
    /\ Permutation (results ++ left_out)
         (eligible loaded_metadata SIMILARITY_THRESHOLD
            (combine (fst (padded 4 [(f64 3 (-2), 1); (half, 0); (half, 2)]))
                     (snd (padded 4 [(f64 3 (-2), 1); (half, 0); (half, 2)]))))
    /\ len results = 2
    /\ Forall (fun r => Forall (not_below r) left_out) results.
Proof.
  exact (search_similar_best loaded_metadata search_ties unit_0 2
           (fst (padded 4 [(f64 3 (-2), 1); (half, 0); (half, 2)]))
           (snd (padded 4 [(f64 3 (-2), 1); (half, 0); (half, 2)]))
           ltac:(lia) eq_refl).
Defined.

(** ** A query *)

Lemma query_knowledge_base_links_witness :
  let run := query_knowledge_base loaded_metadata search_ties embed_query
               Scenario.np_normalize32 generate_reply deadline_question fresh in
  let answered :=
    {| answer := lit "See Source 1.";
       links := map link_of [result_of record_1 (f64 3 (-2));
                             result_of record_0 half;
                             result_of record_2 half] |} in
  run = (Ok answered, snd run)
  /\ len (links answered) <= TOP_K_RESULTS
  /\ Forall (fun l => exists m, In m loaded_metadata
                                /\ url l = meta_source m
                                /\ link_text l = firstn 150 (meta_text m))
            (links answered)
  /\ exists prompt, sent (snd run) = sent fresh ++ [prompt].
Proof.
  intros run answered.
  assert (H : run = (Ok answered, snd run)) by (vm_compute; reflexivity).
  split; [exact H|].
  exact (query_knowledge_base_links loaded_metadata search_ties embed_query
           Scenario.np_normalize32 generate_reply deadline_question fresh
           answered (snd run) H).
Defined.

End QueryRuns.
